(** * A shallow embedding of the [derive_where] attribute macro

    The macro (src/src/lib.rs) reads an attribute token stream
    ([Trait] list, optionally preceded by generic bounds and [;]) and a
    parsed item, and emits the item followed by one [impl] block per
    requested trait.  The enum discriminant classification of
    src/src/item.rs is embedded in module [Item].

    Rust's [Result] together with the possibility of a panic
    ([expect], [unreachable!]) is modelled by the three-way type [Res]. *)

From Stdlib Require Import String Ascii List Bool Arith Lia.
Import ListNotations.
Open Scope string_scope.
Open Scope nat_scope.
Open Scope list_scope.
Set Warnings "-register-all".

(** ** Errors, panics and the result monad *)

(** The diagnostics produced by the macro ([syn::Error]); the string of
    [EExpected] is the token syn reports as expected. *)
Inductive Error : Type :=
  | EExpected (what : string)
  | EUnsupportedTrait (ident : string)
  | ELifetimeBound
  | EEqPredicate
  | EUnitStruct
  | EUnion
  | ERepr.

(** [Ok], [Err], or a panic with its message. *)
Inductive Res (A : Type) : Type :=
  | Ok (a : A)
  | Err (e : Error)
  | Panic (msg : string).
Arguments Ok {A} a.
Arguments Err {A} e.
Arguments Panic {A} msg.

Definition bind {A B} (r : Res A) (f : A -> Res B) : Res B :=
  match r with
  | Ok a => f a
  | Err e => Err e
  | Panic m => Panic m
  end.

Notation "x <- r ;; k" := (bind r (fun x => k))
  (at level 61, r at next level, right associativity).

Lemma bind_ok {A B} (r : Res A) (f : A -> Res B) b :
  bind r f = Ok b -> exists a, r = Ok a /\ f a = Ok b.
Proof. destruct r; simpl; try discriminate; eauto. Qed.

(** ** Tokens

    The token trees the parsers see.  [TPathSep] is [::], [TGroup] a
    delimited group, [TLit] any literal. *)
Inductive tok : Type :=
  | TIdent (s : string)
  | TComma
  | TSemi
  | TColon
  | TPathSep
  | TPlus
  | TEq
  | TLifetime (s : string)
  | TLit
  | TGroup (inner : list tok).

Definition tok_is_semi (t : tok) : bool :=
  match t with TSemi => true | _ => false end.

(** ** Identifiers

    [syn::Ident]'s [Parse] accepts an identifier token unless it is one
    of these reserved words ([accept_as_ident]); they are rejected with
    "expected identifier". *)
Definition keywords : list string :=
  ["_"; "abstract"; "as"; "async"; "await"; "become"; "box"; "break";
   "const"; "continue"; "crate"; "do"; "dyn"; "else"; "enum";
   "extern"; "false"; "final"; "fn"; "for"; "if"; "impl"; "in";
   "let"; "loop"; "macro"; "match"; "mod"; "move"; "mut";
   "override"; "priv"; "pub"; "ref"; "return"; "Self"; "self";
   "static"; "struct"; "super"; "trait"; "true"; "try"; "type";
   "typeof"; "unsafe"; "unsized"; "use"; "virtual"; "where";
   "while"; "yield"].

Definition is_keyword (s : string) : bool := existsb (String.eqb s) keywords.

(** A path segment ([PathSegment::parse_helper]) is an identifier or one
    of the keywords [super], [self], [crate] and [Self]. *)
Definition segment_ok (s : string) : bool :=
  negb (is_keyword s) || existsb (String.eqb s) ["super"; "self"; "crate"; "Self"].

(** ** [enum Trait] *)
Inductive Trait : Type :=
  | Clone | Copy | Debug | Eq | Hash | Ord | PartialEq | PartialOrd.

(** [impl Parse for Trait]: one identifier, one of eight names. *)
Definition trait_of_ident (s : string) : Res Trait :=
  if String.eqb s "Clone" then Ok Clone
  else if String.eqb s "Copy" then Ok Copy
  else if String.eqb s "Debug" then Ok Debug
  else if String.eqb s "Eq" then Ok Eq
  else if String.eqb s "Hash" then Ok Hash
  else if String.eqb s "Ord" then Ok Ord
  else if String.eqb s "PartialEq" then Ok PartialEq
  else if String.eqb s "PartialOrd" then Ok PartialOrd
  else Err (EUnsupportedTrait s).

Definition parse_trait (t : tok) : Res Trait :=
  match t with
  | TIdent s => if is_keyword s then Err (EExpected "identifier") else trait_of_ident s
  | _ => Err (EExpected "identifier")
  end.

(** [Punctuated::<Trait, Token![,]>::parse_terminated]: loop while the
    input is not empty, parse a [Trait], stop at the end, else parse [,].
    It only returns once the whole input is consumed. *)
Fixpoint traits_terminated (ts : list tok) : Res (list Trait) :=
  match ts with
  | [] => Ok []
  | t :: rest =>
      tr <- parse_trait t ;;
      match rest with
      | [] => Ok [tr]
      | TComma :: rest' => trs <- traits_terminated rest' ;; Ok (tr :: trs)
      | _ :: _ => Err (EExpected ",")
      end
  end.

(** ** Types, where predicates and [enum Generic]

    syn's grammar of types and bounds is reduced to paths: a type is
    [ident (:: ident)*], a bound is such a path and bounds are separated
    by [+].  Segments are identifiers or [super], [self], [crate],
    [Self] ([segment_ok]); a [::] not followed by such a segment ends the
    path, and the tokens left make the caller fail.  Groups ([TGroup]) are
    parenthesised or bracketed, never braced. *)
Definition Path := list string.
Definition Type_ := Path.

Fixpoint path_rest (acc : Path) (ts : list tok) : Path * list tok :=
  match ts with
  | TPathSep :: TIdent s :: rest =>
      if segment_ok s then path_rest (acc ++ [s]) rest else (acc, ts)
  | _ => (acc, ts)
  end.

Definition parse_path (ts : list tok) : Res (Path * list tok) :=
  match ts with
  | TIdent s :: rest => if segment_ok s then Ok (path_rest [s] rest) else Err (EExpected "type")
  | _ => Err (EExpected "type")
  end.

Record PredicateType : Type := {
  bounded_ty : Type_;
  bounds : list Path;
}.

Inductive WherePredicate : Type :=
  | WPType (p : PredicateType)
  | WPLifetime (l : string) (ls : list string)
  | WPEq (lhs rhs : Type_).  (* syn 1 has the variant but never parses it *)

(** Bounds after [:]: stop at the end, at [,] or at [;]; otherwise parse a
    bound and continue after a [+].  [fuel] bounds the iterations (each
    consumes a token). *)
Fixpoint parse_bounds (fuel : nat) (ts : list tok) : Res (list Path * list tok) :=
  match fuel with
  | O => Ok ([], ts)
  | S fuel' =>
      match ts with
      | [] | TComma :: _ | TSemi :: _ => Ok ([], ts)
      | _ =>
          pr <- parse_path ts ;;
          let '(b, rest) := pr in
          match rest with
          | TPlus :: rest' =>
              br <- parse_bounds fuel' rest' ;;
              let '(bs, rest'') := br in Ok (b :: bs, rest'')
          | _ => Ok ([b], rest)
          end
      end
  end.

(** The bounds of a lifetime predicate: stop at the end, [,], [;], [:]
    or [=]; otherwise parse a lifetime, and continue after a [+]. *)
Fixpoint lifetime_bounds (ts : list tok) : Res (list string * list tok) :=
  match ts with
  | [] | TComma :: _ | TSemi :: _ | TColon :: _ | TEq :: _ => Ok ([], ts)
  | TLifetime l :: TPlus :: rest =>
      lr <- lifetime_bounds rest ;;
      let '(ls, r) := lr in Ok (l :: ls, r)
  | TLifetime l :: rest => Ok ([l], rest)
  | _ => Err (EExpected "lifetime")
  end.

(** [WherePredicate::parse] of syn 1: a lifetime predicate [ 'a: 'b + .. ]
    or a type predicate [Type: bounds]; the type predicate requires the
    [:], so an equality predicate [T = U] is never parsed. *)
Definition parse_where_predicate (ts : list tok) : Res (WherePredicate * list tok) :=
  match ts with
  | TLifetime l :: TColon :: rest =>
      lr <- lifetime_bounds rest ;;
      let '(ls, r) := lr in Ok (WPLifetime l ls, r)
  | _ =>
      pr <- parse_path ts ;;
      let '(ty, rest) := pr in
      match rest with
      | TColon :: rest' =>
          br <- parse_bounds (length rest') rest' ;;
          let '(bs, r) := br in
          Ok (WPType {| bounded_ty := ty; bounds := bs |}, r)
      | _ => Err (EExpected ":")
      end
  end.

(** [enum Generic] (the variant name keeps the source's spelling). *)
Inductive Generic : Type :=
  | CoustomBound (p : PredicateType)
  | NoBound (ty : Type_).

(** [impl Parse for Generic]: try a where predicate on a fork; on success
    advance past it, otherwise parse a type from the original input. *)
Definition parse_generic (ts : list tok) : Res (Generic * list tok) :=
  match parse_where_predicate ts with
  | Ok (wp, rest) =>
      match wp with
      | WPType p => Ok (CoustomBound p, rest)
      | WPLifetime _ _ => Err ELifetimeBound
      | WPEq _ _ => Err EEqPredicate
      end
  | Err _ =>
      pr <- parse_path ts ;;
      let '(ty, rest) := pr in Ok (NoBound ty, rest)
  | Panic m => Panic m
  end.

(** [Punctuated::<Generic, Token![,]>::parse_separated_nonempty]: a
    generic, then while the next token is [,], the comma and a generic. *)
Fixpoint generics_rest (fuel : nat) (ts : list tok) : Res (list Generic * list tok) :=
  match fuel with
  | O => Ok ([], ts)
  | S fuel' =>
      match ts with
      | TComma :: rest =>
          gr <- parse_generic rest ;;
          let '(g, rest') := gr in
          gr' <- generics_rest fuel' rest' ;;
          let '(gs, rest'') := gr' in Ok (g :: gs, rest'')
      | _ => Ok ([], ts)
      end
  end.

Definition generics_nonempty (ts : list tok) : Res (list Generic * list tok) :=
  gr <- parse_generic ts ;;
  let '(g, rest) := gr in
  gr' <- generics_rest (length rest) rest ;;
  let '(gs, rest') := gr' in Ok (g :: gs, rest').

(** ** [struct DeriveWhere] and its parser *)
Record DeriveWhere : Type := {
  generics : option (list Generic);
  traits : list Trait;
}.

(** The branch taken when the input is not a bare trait list:
    generics, [;], traits. *)
Definition parse_bounded (ts : list tok) : Res DeriveWhere :=
  gr <- generics_nonempty ts ;;
  let '(gs, rest) := gr in
  match rest with
  | TSemi :: rest' =>
      trs <- traits_terminated rest' ;;
      Ok {| generics := Some gs; traits := trs |}
  | _ => Err (EExpected ";")
  end.

(** [impl Parse for DeriveWhere]. *)
Definition parse_derive_where (ts : list tok) : Res DeriveWhere :=
  match traits_terminated ts with
  | Ok trs => Ok {| generics := None; traits := trs |}
  | Err _ => parse_bounded ts
  | Panic m => Panic m
  end.

(** ** Trait paths

    [syn::parse_str::<Path>], reduced to what the eight strings of
    [Trait::path] exercise: an optional leading [::] and identifier
    segments separated by [::]. *)
Definition ident_start (c : ascii) : bool :=
  let n := nat_of_ascii c in
  ((65 <=? n) && (n <=? 90)) || ((97 <=? n) && (n <=? 122)) || (n =? 95).

Definition ident_char (c : ascii) : bool :=
  let n := nat_of_ascii c in ident_start c || ((48 <=? n) && (n <=? 57)).

Definition valid_segment (s : string) : bool :=
  match s with
  | EmptyString => false
  | String c _ => ident_start c
  end.

Fixpoint path_segments (s : string) (cur : string) (acc : list string) : option Path :=
  match s with
  | EmptyString => if valid_segment cur then Some (acc ++ [cur]) else None
  | String ":" (String ":" rest) =>
      if valid_segment cur then path_segments rest EmptyString (acc ++ [cur]) else None
  | String c rest =>
      if ident_char c then path_segments rest (String.append cur (String c EmptyString)) acc
      else None
  end.

Definition parse_str_path (s : string) : option Path :=
  match s with
  | String ":" (String ":" rest) => path_segments rest EmptyString []
  | _ => path_segments s EmptyString []
  end.

Definition trait_path_str (t : Trait) : string :=
  match t with
  | Clone => "::core::clone::Clone"
  | Copy => "::core::copy::Copy"
  | Debug => "::core::fmt::Debug"
  | Eq => "::core::cmp::Eq"
  | Hash => "::core::hash::Hash"
  | Ord => "::core::cmp::Ord"
  | PartialEq => "::core::cmp::PartialEq"
  | PartialOrd => "::core::cmp::PartialOrd"
  end.

(** [Trait::path]: [parse_str(..).expect("failed to parse path")]. *)
Definition trait_path (t : Trait) : Res Path :=
  match parse_str_path (trait_path_str t) with
  | Some p => Ok p
  | None => Panic "failed to parse path"
  end.

(** ** The parsed item ([syn::Data]) *)

(** [syn::Field]: only the identifier matters here; syn gives named
    fields [Some] identifier and tuple fields [None]. *)
Record Field : Type := { field_ident : option string }.

Inductive Fields : Type :=
  | FNamed (fs : list Field)
  | FUnnamed (fs : list Field)
  | FUnit.

Record Variant : Type := {
  v_ident : string;
  v_fields : Fields;
}.

Inductive Data : Type :=
  | DStruct (f : Fields)
  | DEnum (vs : list Variant)
  | DUnion.

(** ** Generated code *)

(** Decimal rendering of a [usize] ([Display]). *)
Fixpoint nat_digits (fuel n : nat) (acc : string) : string :=
  match fuel with
  | O => acc
  | S f =>
      let acc' := String (ascii_of_nat (48 + n mod 10)) acc in
      if n <? 10 then acc' else nat_digits f (n / 10) acc'
  end.

Definition nat_to_string (n : nat) : string := nat_digits (S n) n EmptyString.

(** [format_ident!("{}{}", prefix, x)]. *)
Definition format_ident (prefix s : string) : string := String.append prefix s.

(** The three [Ordering] token streams of [prepare_ord]: bare
    [::core::cmp::Ordering::X], or wrapped in [::core::option::Option::Some]. *)
Inductive OrdTok : Type :=
  | OrdBare (c : comparison)
  | OrdSome (c : comparison).

(** The comparison chain [body] of [prepare_ord]:
    [OBMatch p a b e k] is
    [match p::partial_cmp(a, b) { e => k, __cmp => __cmp }]. *)
Inductive OrdBody : Type :=
  | OBConst (t : OrdTok)
  | OBMatch (p : Path) (field_temp field_other : string) (equal : OrdTok) (k : OrdBody).

(** The [skip] pattern: [{ .. }], [(..)] or nothing. *)
Inductive Skip : Type := SkipBrace | SkipParen | SkipNone.

(** One cross-variant arm [item_ident::variant skip => ordering,]. *)
Record OtherArm : Type := {
  oa_pattern : list string;
  oa_skip : Skip;
  oa_result : OrdTok;
}.

(** A pattern [#pattern { f: ref b, .. }], [#pattern(ref b, ..)] or
    [#pattern]; [pat_path] is [Name] for a struct, [Name::Variant] for a
    variant. *)
Inductive PatShape : Type :=
  | PNamed (binds : list (string * string))
  | PTuple (binds : list string)
  | PUnit.

Record Pat : Type := {
  pat_path : list string;
  pat_shape : PatShape;
}.

(** One [match] arm produced by [build_for_*].  The right-hand sides of
    [Clone] and [Debug] are determined by the pattern: the same shape
    rebuilt with [path::clone(b)] for every binding [b], and a
    [debug_struct]/[debug_tuple] builder fed with every binding (or
    [write_str] of the name for a unit). *)
Inductive Arm : Type :=
  | ArmClone (p : Pat) (clone_path : Path)
  | ArmDebug (p : Pat) (debug_name : string)
  | ArmHash (p : Pat) (hash_path : Path) (hashed : list string)
      (* [#p => { #(hash_path::hash(#hashed, __state);)* }] *)
  | ArmOrd (p : Pat) (p_other : Pat) (body : OrdBody) (other : list OtherArm)
      (* [#p => { match __other { #p_other => #body, #other } }] *)
  | ArmEq (p : Pat) (p_other : Pat) (eq_path : Path)
      (stmts : list (string * string)) (tail : option bool).
      (* [(#p, #p_other) => { #(__cmp &= eq_path::eq(#a, #b);)* #tail }] *)

(** The method of [build_signature]. *)
Inductive Method : Type :=
  | MClone (arms : list Arm)              (* fn clone: match self *)
  | MCopy                                 (* empty *)
  | MDebug (arms : list Arm)              (* fn fmt: match self *)
  | MEq                                   (* empty *)
  | MHash (hash_path : Path) (arms : list Arm)
      (* fn hash: hash_path::hash(&discriminant(self), __state); match self *)
  | MOrd (arms : list Arm)                (* fn cmp: match (self, __other) *)
  | MPartialEq (arms : list Arm)
      (* fn eq: if discriminant(self) == discriminant(__other)
                { let mut __cmp = true; match (self, __other) { arms,
                  _ => unreachable } } else { false } *)
  | MPartialOrd (arms : list Arm).        (* fn partial_cmp: match self *)

Definition build_signature (self : Trait) (body : list Arm) : Res Method :=
  path <- trait_path self ;;
  Ok (match self with
      | Clone => MClone body
      | Copy => MCopy
      | Debug => MDebug body
      | Eq => MEq
      | Hash => MHash path body
      | Ord => MOrd body
      | PartialEq => MPartialEq body
      | PartialOrd => MPartialOrd body
      end).

(** [Trait::prepare_ord]: the comparison chain over the fields, and the
    arms comparing the current variant with every other variant. *)
Fixpoint other_arms (item_ident : string) (skip : Skip) (variant : nat)
    (less equal greater : OrdTok) (index : nat) (variants : list string)
    : list OtherArm :=
  match variants with
  | [] => []
  | v :: vs =>
      (if negb (Nat.eqb variant index) then
         [{| oa_pattern := [item_ident; v];
             oa_skip := skip;
             oa_result := match Nat.compare variant index with
                          | Datatypes.Lt => less
                          | Datatypes.Eq => equal
                          | Datatypes.Gt => greater
                          end |}]
       else [])
      ++ other_arms item_ident skip variant less equal greater (S index) vs
  end.

Definition prepare_ord (self : Trait) (item_ident : string)
    (fields_temp fields_other : list string)
    (variants : option (nat * list string)) (skip : Skip)
    : Res (OrdBody * list OtherArm) :=
  path <- trait_path self ;;
  toks <- match self with
          | PartialOrd => Ok (OrdSome Datatypes.Lt, OrdSome Datatypes.Eq, OrdSome Datatypes.Gt)
          | Ord => Ok (OrdBare Datatypes.Lt, OrdBare Datatypes.Eq, OrdBare Datatypes.Gt)
          | _ => Panic "Unsupported trait in `prepare_ord`."
          end ;;
  let '(less, equal, greater) := toks in
  let body :=
    fold_left (fun body '(field_temp, field_other) =>
                 OBMatch path field_temp field_other equal body)
              (rev (combine fields_temp fields_other)) (OBConst equal) in
  let other :=
    match variants with
    | Some (variant, variants) =>
        other_arms item_ident skip variant less equal greater 0 variants
    | None => []
    end in
  Ok (body, other).

(** [Trait::build_for_struct]. *)
Fixpoint field_idents (fs : list Field) : Res (list string) :=
  match fs with
  | [] => Ok []
  | f :: fs' =>
      i <- match field_ident f with
           | Some i => Ok i
           | None => Panic "missing field name"
           end ;;
      is <- field_idents fs' ;; Ok (i :: is)
  end.

Definition build_for_struct (self : Trait) (debug_name item_ident : string)
    (pattern : list string) (variants : option (nat * list string))
    (fs : list Field) : Res (list Arm) :=
  path <- trait_path self ;;
  fields <- field_idents fs ;;
  let fields_temp := map (format_ident "__") fields in
  let fields_other := map (format_ident "__other_") fields in
  let p := {| pat_path := pattern; pat_shape := PNamed (combine fields fields_temp) |} in
  let po := {| pat_path := pattern; pat_shape := PNamed (combine fields fields_other) |} in
  match self with
  | Clone => Ok [ArmClone p path]
  | Copy => Ok []
  | Debug => Ok [ArmDebug p debug_name]
  | Eq => Ok []
  | Hash => Ok [ArmHash p path fields_temp]
  | Ord | PartialOrd =>
      bo <- prepare_ord self item_ident fields_temp fields_other variants SkipBrace ;;
      let '(body, other) := bo in Ok [ArmOrd p po body other]
  | PartialEq => Ok [ArmEq p po path (combine fields_temp fields_other) None]
  end.

(** [Trait::build_for_tuple]. *)
Definition build_for_tuple (self : Trait) (debug_name item_ident : string)
    (pattern : list string) (variants : option (nat * list string))
    (fs : list Field) : Res (list Arm) :=
  path <- trait_path self ;;
  let fields_temp := map (fun i => format_ident "__" (nat_to_string i)) (seq 0 (length fs)) in
  let fields_other := map (fun i => format_ident "__other_" (nat_to_string i)) (seq 0 (length fs)) in
  let p := {| pat_path := pattern; pat_shape := PTuple fields_temp |} in
  let po := {| pat_path := pattern; pat_shape := PTuple fields_other |} in
  match self with
  | Clone => Ok [ArmClone p path]
  | Copy => Ok []
  | Debug => Ok [ArmDebug p debug_name]
  | Eq => Ok []
  | Hash => Ok [ArmHash p path fields_temp]
  | Ord | PartialOrd =>
      bo <- prepare_ord self item_ident fields_temp fields_other variants SkipParen ;;
      let '(body, other) := bo in Ok [ArmOrd p po body other]
  | PartialEq => Ok [ArmEq p po path (combine fields_temp fields_other) None]
  end.

(** [Trait::build_for_unit]. *)
Definition build_for_unit (self : Trait) (debug_name item_ident : string)
    (pattern : list string) (variants : option (nat * list string)) : Res (list Arm) :=
  let p := {| pat_path := pattern; pat_shape := PUnit |} in
  match self with
  | Clone => Ok [ArmClone p []]
  | Copy => Ok []
  | Debug => Ok [ArmDebug p debug_name]
  | Eq => Ok []
  | Hash => Ok [ArmHash p [] []]
  | Ord | PartialOrd =>
      bo <- prepare_ord self item_ident [] [] variants SkipNone ;;
      let '(body, other) := bo in Ok [ArmOrd p p body other]
  | PartialEq => Ok [ArmEq p p [] [] (Some true)]
  end.

(** The per-variant arms of an enum, [variants.iter().enumerate().map(..).collect()]. *)
Fixpoint variant_arms (self : Trait) (name : string) (variants : list string)
    (index : nat) (vs : list Variant) : Res (list Arm) :=
  match vs with
  | [] => Ok []
  | v :: vs' =>
      let debug_name := v_ident v in
      let pattern := [name; debug_name] in
      a <- match v_fields v with
           | FNamed fs => build_for_struct self debug_name name pattern (Some (index, variants)) fs
           | FUnnamed fs => build_for_tuple self debug_name name pattern (Some (index, variants)) fs
           | FUnit => build_for_unit self debug_name name pattern (Some (index, variants))
           end ;;
      rest <- variant_arms self name variants (S index) vs' ;;
      Ok (a ++ rest)
  end.

(** [Trait::generate_body]. *)
Definition generate_body (self : Trait) (name : string) (data : Data) : Res Method :=
  body <- match data with
          | DStruct (FNamed fs) => build_for_struct self name name [name] None fs
          | DStruct (FUnnamed fs) => build_for_tuple self name name [name] None fs
          | DStruct FUnit => Err EUnitStruct
          | DEnum vs => variant_arms self name (map v_ident vs) 0 vs
          | DUnion => Err EUnion
          end ;;
  build_signature self body.

(** ** [derive_where_internal] *)

Record WhereClause : Type := { predicates : list WherePredicate }.

Record Generics : Type := {
  params : list string;
  where_clause : option WhereClause;
}.

(** The fields of [DeriveInput] the macro destructures. *)
Record DeriveInput : Type := {
  di_ident : string;
  di_generics : Generics;
  di_data : Data;
}.

Record ImplBlock : Type := {
  impl_generics : list string;
  impl_trait : Path;
  impl_ident : string;
  impl_where : option WhereClause;
  impl_body : Method;
}.

(** The output token stream: the item as it was given, then the impls. *)
Record Output : Type := {
  out_item : list tok;
  out_impls : list ImplBlock;
}.

(** The predicate pushed for one [Generic]: the user's predicate, or
    [ty: trait_]. *)
Definition bound_predicate (trait_ : Path) (g : Generic) : WherePredicate :=
  WPType (match g with
          | CoustomBound type_bound => type_bound
          | NoBound path => {| bounded_ty := path; bounds := [trait_] |}
          end).

Definition push_predicate (w : WhereClause) (p : WherePredicate) : WhereClause :=
  {| predicates := predicates w ++ [p] |}.

(** The where clause of one impl: [where_clause.cloned()], then, if the
    attribute has generics, [get_or_insert] an empty clause and push one
    predicate per generic. *)
Definition build_where (where_clause : option WhereClause)
    (generics : option (list Generic)) (trait_ : Path) : option WhereClause :=
  let where_clause := where_clause in
  match generics with
  | None => where_clause
  | Some gs =>
      let w := match where_clause with
               | Some w => w
               | None => {| predicates := [] |}
               end in
      Some (fold_left (fun w g => push_predicate w (bound_predicate trait_ g)) gs w)
  end.

(** The [for trait_ in derive_where.traits] loop; [output] accumulates the
    impls already emitted, an error returns at once. *)
Fixpoint impl_loop (dw_generics : option (list Generic)) (ident : string)
    (generics : Generics) (data : Data) (traits : list Trait)
    (output : list ImplBlock) : Res (list ImplBlock) :=
  match traits with
  | [] => Ok output
  | t :: ts =>
      body <- generate_body t ident data ;;
      trait_ <- trait_path t ;;
      let wc := build_where (where_clause generics) dw_generics trait_ in
      impl_loop dw_generics ident generics data ts
        (output ++ [{| impl_generics := params generics;
                       impl_trait := trait_;
                       impl_ident := ident;
                       impl_where := wc;
                       impl_body := body |}])
  end.

Section Orchestrator.

(** [syn::parse2::<DeriveInput>] on the item: the syntax parser is
    outside this crate. *)
Variable parse_derive_input : list tok -> Res DeriveInput.

Definition derive_where_internal (attr item : list tok) : Res Output :=
  dw <- parse_derive_where attr ;;
  let output := item in
  di <- parse_derive_input item ;;
  impls <- impl_loop (generics dw) (di_ident di) (di_generics di) (di_data di)
             (traits dw) [] ;;
  Ok {| out_item := output; out_impls := impls |}.

(** What the compiler receives from [derive_where]. *)
Inductive Expansion : Type :=
  | Expanded (o : Output)
  | CompileError (e : Error)
  | Panicked (msg : string).

Definition derive_where (attr item : list tok) : Expansion :=
  match derive_where_internal attr item with
  | Ok output => Expanded output
  | Err error => CompileError error
  | Panic m => Panicked m
  end.

End Orchestrator.

(** ** Running the generated methods

    Small evaluators for the generated [match] expressions, used to state
    what the generated code computes. *)

Fixpoint path_eqb (a b : list string) : bool :=
  match a, b with
  | [], [] => true
  | x :: a', y :: b' => String.eqb x y && path_eqb a' b'
  | _, _ => false
  end.

(** Runtime values of type [Ordering] or [Option<Ordering>]. *)
Inductive OVal : Type :=
  | OVBare (c : comparison)
  | OVSome (c : comparison)
  | OVNone.

Definition denote (t : OrdTok) : OVal :=
  match t with
  | OrdBare c => OVBare c
  | OrdSome c => OVSome c
  end.

Definition comparison_eqb (a b : comparison) : bool :=
  match a, b with
  | Datatypes.Lt, Datatypes.Lt | Datatypes.Eq, Datatypes.Eq
  | Datatypes.Gt, Datatypes.Gt => true
  | _, _ => false
  end.

Definition oval_eqb (a b : OVal) : bool :=
  match a, b with
  | OVBare x, OVBare y | OVSome x, OVSome y => comparison_eqb x y
  | OVNone, OVNone => true
  | _, _ => false
  end.

(** [call a b] is the value of [p::partial_cmp(a, b)] in the arm. *)
Fixpoint eval_ordbody (call : string -> string -> OVal) (b : OrdBody) : OVal :=
  match b with
  | OBConst t => denote t
  | OBMatch _ ft fo equal k =>
      let v := call ft fo in
      if oval_eqb v (denote equal) then eval_ordbody call k else v
  end.

(** The inner [match __other] of an ordering arm, for an [__other] whose
    constructor path is [other_path]. *)
Definition eval_ord_arm (a : Arm) (other_path : list string)
    (call : string -> string -> OVal) : option OVal :=
  match a with
  | ArmOrd _ po body other =>
      if path_eqb other_path (pat_path po) then Some (eval_ordbody call body)
      else match find (fun oa => path_eqb (oa_pattern oa) other_path) other with
           | Some oa => Some (denote (oa_result oa))
           | None => None
           end
  | _ => None
  end.

Definition arm_path (a : Arm) : list string :=
  match a with
  | ArmClone p _ | ArmDebug p _ | ArmHash p _ _ | ArmOrd p _ _ _ | ArmEq p _ _ _ _ =>
      pat_path p
  end.

(** [eval_ord_arm] presumes that the [match] it runs is accepted by the
    compiler.  Two of the compiler's pattern checks are written out here.
    A pattern [V skip] fits a variant [V] when [skip] is [{ .. }] (any
    variant), [(..)] and [V] is a tuple variant, or nothing and [V] is a
    unit variant; otherwise [rustc] rejects it (E0532, E0533, E0164). *)
Definition skip_fits (s : Skip) (f : Fields) : bool :=
  match s, f with
  | SkipBrace, _ => true
  | SkipParen, FUnnamed _ => true
  | SkipNone, FUnit => true
  | _, _ => false
  end.

(** The variant of the enum [name] a path [name::V] denotes. *)
Definition variant_of (name : string) (vs : list Variant) (p : list string)
    : option Variant :=
  find (fun v => path_eqb [name; v_ident v] p) vs.

Definition other_arm_fits (name : string) (vs : list Variant) (oa : OtherArm) : bool :=
  match variant_of name vs (oa_pattern oa) with
  | Some v => skip_fits (oa_skip oa) (v_fields v)
  | None => false
  end.

(** The number of values an arm's pattern matches ([(#p, #p_other)] for
    [ArmEq], [#p] otherwise), and the number the method's [match]
    scrutinizes ([(self, __other)] in [cmp] and [eq], [self] elsewhere). *)
Definition arm_arity (a : Arm) : nat :=
  match a with
  | ArmEq _ _ _ _ _ => 2
  | _ => 1
  end.

Definition scrutinee_arity (m : Method) : nat :=
  match m with
  | MOrd _ | MPartialEq _ => 2
  | _ => 1
  end.

Definition method_arms (m : Method) : list Arm :=
  match m with
  | MClone a | MDebug a | MHash _ a | MOrd a | MPartialEq a | MPartialOrd a => a
  | MCopy | MEq => []
  end.

(** The arms of [m] for the enum [name] with variants [vs] pass both
    checks: every arm has the arity of the scrutinee, and every
    cross-variant pattern of an ordering arm fits the variant it names. *)
Definition match_patterns_fit (name : string) (vs : list Variant) (m : Method) : bool :=
  forallb (fun a =>
             Nat.eqb (arm_arity a) (scrutinee_arity m) &&
             match a with
             | ArmOrd _ _ _ other => forallb (other_arm_fits name vs) other
             | _ => true
             end)
    (method_arms m).

(** The generated [cmp]/[partial_cmp] on [self] of path [self_path] and
    [__other] of path [other_path]: nothing when the [match] is rejected
    by the checks above, otherwise the first arm for [self_path]. *)
Definition eval_ord_method (name : string) (vs : list Variant) (m : Method)
    (self_path other_path : list string) (call : string -> string -> OVal)
    : option OVal :=
  if match_patterns_fit name vs m then
    match m with
    | MOrd arms | MPartialOrd arms =>
        match find (fun a => path_eqb (arm_path a) self_path) arms with
        | Some a => eval_ord_arm a other_path call
        | None => None
        end
    | _ => None
    end
  else None.

(** What the generated [hash] feeds to the hasher, in order. *)
Inductive HashInput : Type :=
  | HDiscriminant
  | HField (binding : string).

Definition hash_trace (m : Method) (self_path : list string) : option (list HashInput) :=
  match m with
  | MHash _ arms =>
      match find (fun a => path_eqb (arm_path a) self_path) arms with
      | Some (ArmHash _ _ hashed) => Some (HDiscriminant :: map HField hashed)
      | _ => None
      end
  | _ => None
  end.

(** Values of the generated [eq]: a [bool], the unit value of a block
    without tail expression, or a panic of the [_] arm. *)
Inductive EqVal : Type :=
  | EVBool (b : bool)
  | EVUnit
  | EVPanic.

(** [eq_call a b] is the value of [p::eq(a, b)].  The result is the value
    of the method and the final value of [__cmp]. *)
Definition eval_eq (m : Method) (self_path other_path : list string)
    (eq_call : string -> string -> bool) : option (EqVal * bool) :=
  match m with
  | MPartialEq arms =>
      if path_eqb self_path other_path then
        let cmp := true in
        match find (fun a => match a with
                             | ArmEq p po _ _ _ =>
                                 path_eqb (pat_path p) self_path
                                 && path_eqb (pat_path po) other_path
                             | _ => false
                             end) arms with
        | Some (ArmEq _ _ _ stmts tail) =>
            let cmp := fold_left (fun c '(a, b) => c && eq_call a b) stmts cmp in
            Some (match tail with Some b => EVBool b | None => EVUnit end, cmp)
        | _ => Some (EVPanic, cmp)
        end
      else Some (EVBool false, true)
  | _ => None
  end.

(** ** src/src/item.rs: [Discriminant::parse] *)
Module Item.

(** [syn::Meta] of an attribute: [#[path]], [#[path(tokens)]] or
    [#[path = value]]. *)
Inductive Meta : Type :=
  | MetaPath (path : Path)
  | MetaList (path : Path) (tokens : list tok)
  | MetaNameValue (path : Path) (value : tok).

Record Attribute : Type := { meta : Meta }.

Definition attr_path (a : Attribute) : Path :=
  match meta a with
  | MetaPath p | MetaList p _ | MetaNameValue p _ => p
  end.

(** [Path::is_ident]. *)
Definition is_ident (p : Path) (s : string) : bool :=
  match p with
  | [x] => String.eqb x s
  | _ => false
  end.

(** [Punctuated::<Ident, Token![,]>::parse_terminated]; [Ident::parse]
    rejects the reserved words. *)
Fixpoint idents_terminated (ts : list tok) : Res (list string) :=
  match ts with
  | [] => Ok []
  | t :: rest =>
      i <- match t with
           | TIdent s => if is_keyword s then Err (EExpected "identifier") else Ok s
           | _ => Err (EExpected "identifier")
           end ;;
      match rest with
      | [] => Ok [i]
      | TComma :: rest' => is <- idents_terminated rest' ;; Ok (i :: is)
      | _ :: _ => Err (EExpected ",")
      end
  end.

Inductive Representation : Type :=
  | U8 | U16 | U32 | U64 | U128 | USize
  | I8 | I16 | I32 | I64 | I128 | ISize.

(** [Representation::parse]. *)
Definition representation_parse (ident : string) : option Representation :=
  if String.eqb ident "u8" then Some U8
  else if String.eqb ident "u16" then Some U16
  else if String.eqb ident "u32" then Some U32
  else if String.eqb ident "u64" then Some U64
  else if String.eqb ident "u128" then Some U128
  else if String.eqb ident "usize" then Some USize
  else if String.eqb ident "i8" then Some I8
  else if String.eqb ident "i16" then Some I16
  else if String.eqb ident "i32" then Some I32
  else if String.eqb ident "i64" then Some I64
  else if String.eqb ident "i128" then Some I128
  else if String.eqb ident "isize" then Some ISize
  else None.

(** [impl ToTokens for Representation]: the type's identifier. *)
Definition representation_to_tokens (r : Representation) : tok :=
  TIdent (match r with
          | U8 => "u8" | U16 => "u16" | U32 => "u32" | U64 => "u64"
          | U128 => "u128" | USize => "usize"
          | I8 => "i8" | I16 => "i16" | I32 => "i32" | I64 => "i64"
          | I128 => "i128" | ISize => "isize"
          end).

Inductive Discriminant : Type :=
  | Unknown
  | Single
  | UnitDefault
  | UnitRepr (r : Representation)
  | Repr (r : Representation).

(** [for ident in list { if ident == "C" { is_c = true } else if let
    Some(repr) = .. { has_repr = Some(repr); break; } }]. *)
Fixpoint scan_idents (list : list string) (has_repr : option Representation)
    (is_c : bool) : option Representation * bool :=
  match list with
  | [] => (has_repr, is_c)
  | ident :: rest =>
      if String.eqb ident "C" then scan_idents rest has_repr true
      else match representation_parse ident with
           | Some repr => (Some repr, is_c)
           | None => scan_idents rest has_repr is_c
           end
  end.

(** [for attr in attrs { .. }]. *)
Fixpoint scan_attrs (attrs : list Attribute) (has_repr : option Representation)
    (is_c : bool) : Res (option Representation * bool) :=
  match attrs with
  | [] => Ok (has_repr, is_c)
  | attr :: rest =>
      if is_ident (attr_path attr) "repr" then
        match meta attr with
        | MetaList _ tokens =>
            list <- idents_terminated tokens ;;
            let '(has_repr', is_c') := scan_idents list has_repr is_c in
            scan_attrs rest has_repr' is_c'
        | _ => Err ERepr
        end
      else scan_attrs rest has_repr is_c
  end.

(** [variant.fields.is_empty()]. *)
Definition fields_is_empty (f : Fields) : bool :=
  match f with
  | FNamed fs | FUnnamed fs => match fs with [] => true | _ => false end
  | FUnit => true
  end.

(** [Discriminant::parse]. *)
Definition discriminant_parse (attrs : list Attribute) (variants : list Variant)
    : Res Discriminant :=
  if Nat.eqb (length variants) 1 then Ok Single
  else
    sc <- scan_attrs attrs None false ;;
    let '(has_repr, is_c) := sc in
    let is_unit := forallb (fun variant => fields_is_empty (v_fields variant)) variants in
    Ok (match has_repr with
        | Some repr => if is_unit then UnitRepr repr else Repr repr
        | None => if is_unit && negb is_c then UnitDefault else Unknown
        end).

End Item.

(** * Properties *)

(** ** The attribute parser *)

Definition suffix_of (r ts : list tok) : Prop := exists pre, ts = pre ++ r.

Lemma suffix_refl ts : suffix_of ts ts.
Proof. exists []; reflexivity. Qed.

Lemma suffix_cons t r ts : suffix_of r ts -> suffix_of r (t :: ts).
Proof. intros [pre ->]; exists (t :: pre); reflexivity. Qed.

Lemma suffix_trans a b c : suffix_of a b -> suffix_of b c -> suffix_of a c.
Proof. intros [p1 ->] [p2 ->]; exists (p2 ++ p1); rewrite app_assoc; reflexivity. Qed.

Lemma suffix_in t r ts : suffix_of r ts -> In t r -> In t ts.
Proof. intros [pre ->] H; apply in_or_app; auto. Qed.

Create HintDb suffix.
#[local] Hint Resolve suffix_refl suffix_cons : suffix.

Ltac len_induction x :=
  induction x as [x IH] using (well_founded_ind (well_founded_ltof _ (@length tok))).

Lemma path_rest_suffix ts : forall acc p r, path_rest acc ts = (p, r) -> suffix_of r ts.
Proof.
  len_induction ts; intros acc p r H.
  destruct ts as [|[] ts1]; simpl in H; try (inversion H; subst; apply suffix_refl).
  destruct ts1 as [|[] ts2]; simpl in H; try (inversion H; subst; apply suffix_refl).
  destruct (segment_ok s); [|inversion H; subst; apply suffix_refl].
  do 2 apply suffix_cons.
  eapply IH; [unfold ltof; simpl; lia | exact H].
Qed.

Lemma parse_path_suffix ts p r : parse_path ts = Ok (p, r) -> suffix_of r ts.
Proof.
  destruct ts as [|[] ts]; simpl; try discriminate.
  destruct (segment_ok s); [|discriminate].
  intros H; inversion H; apply suffix_cons; eapply path_rest_suffix; eauto.
Qed.

(** One step of [parse_bounds] on a nonempty input. *)
Lemma parse_bounds_step fuel t ts :
  parse_bounds (S fuel) (t :: ts) =
  match t with
  | TComma | TSemi => Ok ([], t :: ts)
  | _ =>
      pr <- parse_path (t :: ts) ;;
      let '(b, rest) := pr in
      match rest with
      | TPlus :: rest' =>
          br <- parse_bounds fuel rest' ;;
          let '(bs, rest'') := br in Ok (b :: bs, rest'')
      | _ => Ok ([b], rest)
      end
  end.
Proof. destruct t; reflexivity. Qed.

Lemma parse_bounds_suffix fuel : forall ts bs r,
  parse_bounds fuel ts = Ok (bs, r) -> suffix_of r ts.
Proof.
  induction fuel as [|fuel IH]; intros ts bs r H.
  - simpl in H; inversion H; apply suffix_refl.
  - destruct ts as [|t ts']; [simpl in H; inversion H; apply suffix_refl|].
    rewrite parse_bounds_step in H.
    assert (Hgen : (pr <- parse_path (t :: ts') ;;
                    let '(b, rest) := pr in
                    match rest with
                    | TPlus :: rest' =>
                        br <- parse_bounds fuel rest' ;;
                        let '(bs, rest'') := br in Ok (b :: bs, rest'')
                    | _ => Ok ([b], rest)
                    end) = Ok (bs, r) -> suffix_of r (t :: ts')).
    { intros H'; apply bind_ok in H' as [[b rest] [Hp Hk]].
      apply parse_path_suffix in Hp.
      destruct rest as [|[] rest']; try (inversion Hk; subst; exact Hp).
      apply bind_ok in Hk as [[bs' r'] [Hb Hk]]; inversion Hk; subst.
      eapply suffix_trans; [eapply IH; eauto|].
      eapply suffix_trans; [apply suffix_cons, suffix_refl|exact Hp]. }
    destruct t; try (inversion H; apply suffix_refl); apply Hgen; exact H.
Qed.

Lemma lifetime_bounds_suffix ts : forall ls r, lifetime_bounds ts = Ok (ls, r) -> suffix_of r ts.
Proof.
  len_induction ts; intros ls r H.
  destruct ts as [|[] ts1]; simpl in H; try discriminate; try (inversion H; subst; apply suffix_refl).
  destruct ts1 as [|[] ts2]; simpl in H; try (inversion H; subst; auto with suffix).
  destruct (lifetime_bounds ts2) as [[ls' r']| |] eqn:E; simpl in H; try discriminate.
  inversion H; subst.
  do 2 apply suffix_cons; eapply IH; [unfold ltof; simpl; lia | exact E].
Qed.

Lemma parse_where_predicate_suffix ts wp r :
  parse_where_predicate ts = Ok (wp, r) -> suffix_of r ts.
Proof.
  intros H.
  assert (Hty : (pr <- parse_path ts ;;
                 let '(ty, rest) := pr in
                 match rest with
                 | TColon :: rest' =>
                     br <- parse_bounds (length rest') rest' ;;
                     let '(bs, r) := br in
                     Ok (WPType {| bounded_ty := ty; bounds := bs |}, r)
                 | _ => Err (EExpected ":")
                 end) = Ok (wp, r) -> suffix_of r ts).
  { intros H'; apply bind_ok in H' as [[ty rest] [Hp Hk]].
    apply parse_path_suffix in Hp.
    destruct rest as [|[] rest']; try discriminate.
    apply bind_ok in Hk as [[bs r'] [Hb Hk]]; inversion Hk; subst.
    eapply suffix_trans; [eapply parse_bounds_suffix; eauto|].
    eapply suffix_trans; [apply suffix_cons, suffix_refl|exact Hp]. }
  destruct ts as [|t ts1]; [discriminate|].
  destruct t; try (apply Hty; exact H).
  destruct ts1 as [|[] ts2]; try (apply Hty; exact H).
  cbn [parse_where_predicate] in H.
  destruct (lifetime_bounds ts2) as [[ls r']| |] eqn:Hl; cbn [bind] in H; try discriminate.
  inversion H; subst.
  do 2 apply suffix_cons; eapply lifetime_bounds_suffix; eauto.
Qed.

Lemma parse_generic_suffix ts g r : parse_generic ts = Ok (g, r) -> suffix_of r ts.
Proof.
  unfold parse_generic; intros H.
  destruct (parse_where_predicate ts) as [[wp rest]| |] eqn:Hw; try discriminate.
  - destruct wp; inversion H; subst; eapply parse_where_predicate_suffix; eauto.
  - apply bind_ok in H as [[ty rest] [Hp Hk]]; inversion Hk; subst.
    eapply parse_path_suffix; eauto.
Qed.

Lemma generics_rest_suffix fuel : forall ts gs r,
  generics_rest fuel ts = Ok (gs, r) -> suffix_of r ts.
Proof.
  induction fuel as [|fuel IH]; simpl; intros ts gs r H.
  - inversion H; apply suffix_refl.
  - destruct ts as [|[] ts']; try (inversion H; apply suffix_refl).
    apply bind_ok in H as [[g rest] [Hg H]].
    apply bind_ok in H as [[gs' rest'] [Hr Hk]]; inversion Hk; subst.
    apply suffix_cons; eapply suffix_trans; [eapply IH; eauto|].
    eapply parse_generic_suffix; eauto.
Qed.

Lemma generics_nonempty_suffix ts gs r :
  generics_nonempty ts = Ok (gs, r) -> suffix_of r ts /\ gs <> [].
Proof.
  unfold generics_nonempty; intros H.
  apply bind_ok in H as [[g rest] [Hg H]].
  apply bind_ok in H as [[gs' rest'] [Hr Hk]]; inversion Hk; subst.
  split; [|discriminate].
  eapply suffix_trans; [eapply generics_rest_suffix; eauto|].
  eapply parse_generic_suffix; eauto.
Qed.

(** A bare trait list holds only identifiers and commas. *)
Lemma traits_terminated_no_semi ts trs : traits_terminated ts = Ok trs -> ~ In TSemi ts.
Proof.
  revert trs; len_induction ts; intros trs H Hin.
  destruct ts as [|t rest]; [destruct Hin|]; simpl in H.
  apply bind_ok in H as [tr [Ht H]].
  destruct t; try discriminate.
  destruct Hin as [Hin|Hin]; [discriminate|].
  destruct rest as [|[] rest']; try discriminate; [destruct Hin|].
  apply bind_ok in H as [trs' [Hr _]].
  destruct Hin as [Hin|Hin]; [discriminate|].
  eapply (IH rest'); [unfold ltof; simpl; lia|exact Hr|exact Hin].
Qed.

Lemma parse_bounded_shape ts dw :
  parse_bounded ts = Ok dw ->
  exists gs rest, generics_nonempty ts = Ok (gs, TSemi :: rest) /\ gs <> [] /\
    traits_terminated rest = Ok (traits dw) /\ generics dw = Some gs.
Proof.
  unfold parse_bounded; intros H.
  apply bind_ok in H as [[gs rest] [Hg H]].
  destruct rest as [|[] rest']; try discriminate.
  apply bind_ok in H as [trs [Ht Hk]]; inversion Hk; subst.
  exists gs, rest'; repeat split; auto.
  apply generics_nonempty_suffix in Hg as [_ ?]; auto.
Qed.

(** ** C5 *)

(** C5: [parse_derive_where] first parses the whole input as a
    comma-separated trait list (which only succeeds by consuming all of
    it) and returns no generics exactly when that succeeds; otherwise it
    parses a non-empty comma-separated generic list, one [;] and a trait
    list.  An input accepted by that second form is never accepted as a
    bare trait list. *)
Theorem parse_derive_where_disambiguation :
  (forall ts dw, parse_derive_where ts = Ok dw ->
     (generics dw = None <-> traits_terminated ts = Ok (traits dw))) /\
  (forall ts trs, traits_terminated ts = Ok trs ->
     parse_derive_where ts = Ok {| generics := None; traits := trs |}) /\
  (forall ts e, traits_terminated ts = Err e ->
     parse_derive_where ts = parse_bounded ts /\
     (forall dw, parse_bounded ts = Ok dw ->
        exists gs rest, generics_nonempty ts = Ok (gs, TSemi :: rest) /\ gs <> [] /\
          traits_terminated rest = Ok (traits dw) /\ generics dw = Some gs)) /\
  (forall ts dw, parse_bounded ts = Ok dw -> exists e, traits_terminated ts = Err e).
Proof.
  assert (Hsemi : forall ts dw, parse_bounded ts = Ok dw -> In TSemi ts).
  { intros ts dw H; apply parse_bounded_shape in H as (gs & rest & Hg & _).
    apply generics_nonempty_suffix in Hg as [Hs _].
    eapply suffix_in; [exact Hs|left; reflexivity]. }
  assert (Hnot : forall ts dw, parse_bounded ts = Ok dw -> exists e, traits_terminated ts = Err e).
  { intros ts dw H.
    destruct (traits_terminated ts) as [trs|e|m] eqn:Ht; eauto.
    - exfalso; eapply traits_terminated_no_semi; eauto.
    - exfalso; clear -Ht; revert m Ht; len_induction ts; intros m Ht.
      destruct ts as [|t rest]; simpl in Ht; [discriminate|].
      destruct t; simpl in Ht; try discriminate.
      destruct (is_keyword s); simpl in Ht; [discriminate|].
      unfold trait_of_ident in Ht; repeat (destruct (String.eqb _ _); [|]); simpl in Ht;
        try discriminate;
        (destruct rest as [|[] rest']; try discriminate;
         destruct (traits_terminated rest') eqn:Hr; simpl in Ht; try discriminate;
         eapply (IH rest'); [unfold ltof; simpl; lia|exact Hr]). }
  split; [|split; [|split]].
  - intros ts dw H; unfold parse_derive_where in H.
    destruct (traits_terminated ts) as [trs|e|m] eqn:Ht; try discriminate.
    + inversion H; subst; simpl; split; auto.
    + apply parse_bounded_shape in H as (gs & rest & _ & _ & _ & Hgen).
      rewrite Hgen; split; discriminate.
  - intros ts trs H; unfold parse_derive_where; rewrite H; reflexivity.
  - intros ts e H; unfold parse_derive_where; rewrite H; split; auto.
    intros dw Hb; apply parse_bounded_shape; auto.
  - exact Hnot.
Qed.

(** ** Ordering bodies *)

(** The [Ordering] token a comparison trait uses: [Some(..)]-wrapped for
    [PartialOrd], bare otherwise. *)
Definition wrap_ordering (t : Trait) (c : comparison) : OrdTok :=
  match t with
  | PartialOrd => OrdSome c
  | _ => OrdBare c
  end.

(** syn gives every named field an identifier. *)
Definition fields_wf (f : Fields) : bool :=
  match f with
  | FNamed fs => forallb (fun f => match field_ident f with Some _ => true | None => false end) fs
  | _ => true
  end.

Definition data_wf (d : Data) : bool :=
  match d with
  | DStruct f => fields_wf f
  | DEnum vs => forallb (fun v => fields_wf (v_fields v)) vs
  | DUnion => true
  end.

Lemma path_eqb_eq a b : path_eqb a b = true <-> a = b.
Proof.
  revert b; induction a as [|x a IH]; intros [|y b]; simpl; try (split; congruence).
  rewrite andb_true_iff, String.eqb_eq, IH; split; [intros [-> ->]; auto|intros H; inversion H; auto].
Qed.

Lemma path_eqb_refl a : path_eqb a a = true.
Proof. apply path_eqb_eq; reflexivity. Qed.

Lemma trait_path_some t : exists p, trait_path t = Ok p.
Proof. destruct t; eexists; reflexivity. Qed.

(** The first field pair whose comparison is not [equal] decides. *)
Definition lex_first (call : string -> string -> OVal) (equal : OVal)
    (pairs : list (string * string)) : OVal :=
  match find (fun '(a, b) => negb (oval_eqb (call a b) equal)) pairs with
  | Some (a, b) => call a b
  | None => equal
  end.

Lemma eval_chain_lex call p equal pairs :
  eval_ordbody call
    (fold_right (fun x acc => let '(ft, fo) := x in OBMatch p ft fo equal acc) (OBConst equal) pairs)
  = lex_first call (denote equal) pairs.
Proof.
  unfold lex_first; induction pairs as [|[a b] ps IH]; simpl; auto.
  destruct (oval_eqb (call a b) (denote equal)); simpl; auto.
Qed.

Lemma fold_left_rev {A B} (f : B -> A -> B) (l : list A) (i : B) :
  fold_left f (rev l) i = fold_right (fun x acc => f acc x) i l.
Proof.
  induction l as [|x l IH]; simpl; auto.
  rewrite fold_left_app, IH; reflexivity.
Qed.

Lemma prepare_ord_ok t item_ident temps others variants skip :
  t = Ord \/ t = PartialOrd ->
  exists path, trait_path t = Ok path /\
  prepare_ord t item_ident temps others variants skip =
    Ok (fold_right (fun x acc => let '(ft, fo) := x in OBMatch path ft fo (wrap_ordering t Datatypes.Eq) acc)
          (OBConst (wrap_ordering t Datatypes.Eq)) (combine temps others),
        match variants with
        | Some (variant, vs) =>
            other_arms item_ident skip variant (wrap_ordering t Datatypes.Lt)
              (wrap_ordering t Datatypes.Eq) (wrap_ordering t Datatypes.Gt) 0 vs
        | None => []
        end).
Proof.
  intros Ht; destruct (trait_path_some t) as [path Hp]; exists path; split; auto.
  unfold prepare_ord; rewrite Hp; simpl.
  destruct Ht as [-> | ->]; simpl; rewrite fold_left_rev;
    destruct variants as [[]|]; reflexivity.
Qed.

Lemma other_arms_results item skip variant less equal greater index vs :
  Forall (fun oa => oa_result oa = less \/ oa_result oa = greater)
    (other_arms item skip variant less equal greater index vs).
Proof.
  revert index; induction vs as [|v vs IH]; intros index; simpl; auto.
  apply Forall_app; split; auto.
  destruct (Nat.eqb variant index) eqn:E; simpl; auto.
  constructor; auto; simpl.
  apply Nat.eqb_neq in E.
  destruct (Nat.compare variant index) eqn:C; auto.
  apply Nat.compare_eq in C; contradiction.
Qed.

(** ** C2 *)

(** C2: for [Ord] and [PartialOrd] and any fields, the comparison chain
    of [prepare_ord] is the right fold, from the last field to the first,
    of [match path::partial_cmp(a, b) { equal => acc, __cmp => __cmp }]
    over the base case [equal]; it evaluates to the comparison of the
    first field pair that does not compare [equal] (or [equal]); and every
    [Ordering] token it and the cross-variant arms use is wrapped in
    [Some] for [PartialOrd] and bare for [Ord]. *)
Theorem prepare_ord_chain_lexicographic t item_ident temps others variants skip :
  t = Ord \/ t = PartialOrd ->
  exists path body other,
    trait_path t = Ok path /\
    prepare_ord t item_ident temps others variants skip = Ok (body, other) /\
    body = fold_right (fun x acc => let '(ft, fo) := x in
                         OBMatch path ft fo (wrap_ordering t Datatypes.Eq) acc)
             (OBConst (wrap_ordering t Datatypes.Eq)) (combine temps others) /\
    (forall call, eval_ordbody call body =
                  lex_first call (denote (wrap_ordering t Datatypes.Eq)) (combine temps others)) /\
    Forall (fun oa => exists c, oa_result oa = wrap_ordering t c) other /\
    wrap_ordering PartialOrd Datatypes.Eq = OrdSome Datatypes.Eq /\
    wrap_ordering Ord Datatypes.Eq = OrdBare Datatypes.Eq.
Proof.
  intros Ht; destruct (prepare_ord_ok t item_ident temps others variants skip Ht) as [path [Hp Hpo]].
  do 3 eexists; split; [exact Hp|]; split; [exact Hpo|]; split; [reflexivity|].
  split; [intros call; apply eval_chain_lex|].
  split; [|split; reflexivity].
  destruct variants as [[variant vs]|]; [|constructor].
  eapply Forall_impl; [|apply other_arms_results].
  intros oa [H|H]; eexists; exact H.
Qed.

Lemma prepare_ord_chain_lexicographic_witness :
  (Ord = Ord \/ Ord = PartialOrd) /\
  exists path body other,
    trait_path Ord = Ok path /\
    prepare_ord Ord "S" ["__a"; "__b"] ["__other_a"; "__other_b"] None SkipBrace = Ok (body, other) /\
    body = fold_right (fun x acc => let '(ft, fo) := x in
                         OBMatch path ft fo (wrap_ordering Ord Datatypes.Eq) acc)
             (OBConst (wrap_ordering Ord Datatypes.Eq))
             (combine ["__a"; "__b"] ["__other_a"; "__other_b"]) /\
    (forall call, eval_ordbody call body =
                  lex_first call (denote (wrap_ordering Ord Datatypes.Eq))
                    (combine ["__a"; "__b"] ["__other_a"; "__other_b"])) /\
    Forall (fun oa => exists c, oa_result oa = wrap_ordering Ord c) other /\
    wrap_ordering PartialOrd Datatypes.Eq = OrdSome Datatypes.Eq /\
    wrap_ordering Ord Datatypes.Eq = OrdBare Datatypes.Eq.
Proof.
  split; [left; reflexivity|].
  apply prepare_ord_chain_lexicographic; left; reflexivity.
Defined.

(** ** Cross-variant arms *)

Definition skip_of (f : Fields) : Skip :=
  match f with
  | FNamed _ => SkipBrace
  | FUnnamed _ => SkipParen
  | FUnit => SkipNone
  end.

Definition select_ordering (c : comparison) (less equal greater : OrdTok) : OrdTok :=
  match c with
  | Datatypes.Lt => less
  | Datatypes.Eq => equal
  | Datatypes.Gt => greater
  end.

Lemma field_idents_ok fs :
  fields_wf (FNamed fs) = true -> exists ids, field_idents fs = Ok ids.
Proof.
  simpl; induction fs as [|f fs IH]; simpl; [eauto|].
  destruct (field_ident f) as [i|]; simpl; [|discriminate].
  intros H; destruct (IH H) as [ids Hids]; rewrite Hids; simpl; eauto.
Qed.

Lemma variant_build_ord t name variants index v :
  t = Ord \/ t = PartialOrd -> fields_wf (v_fields v) = true ->
  exists p po body,
    match v_fields v with
    | FNamed fs => build_for_struct t (v_ident v) name [name; v_ident v] (Some (index, variants)) fs
    | FUnnamed fs => build_for_tuple t (v_ident v) name [name; v_ident v] (Some (index, variants)) fs
    | FUnit => build_for_unit t (v_ident v) name [name; v_ident v] (Some (index, variants))
    end =
    Ok [ArmOrd p po body
          (other_arms name (skip_of (v_fields v)) index (wrap_ordering t Datatypes.Lt)
             (wrap_ordering t Datatypes.Eq) (wrap_ordering t Datatypes.Gt) 0 variants)] /\
    pat_path p = [name; v_ident v] /\ pat_path po = [name; v_ident v].
Proof.
  intros Ht Hwf.
  destruct (trait_path_some t) as [path Hp].
  destruct (v_fields v) as [fs|fs|] eqn:Ef; simpl.
  - destruct (field_idents_ok fs Hwf) as [ids Hids].
    unfold build_for_struct; rewrite Hp, Hids; simpl.
    destruct (prepare_ord_ok t name (map (format_ident "__") ids) (map (format_ident "__other_") ids)
                (Some (index, variants)) SkipBrace Ht) as [path' [_ Hpo]].
    destruct Ht as [-> | ->]; (rewrite Hpo; simpl; do 3 eexists; split; [reflexivity|auto]).
  - unfold build_for_tuple; rewrite Hp; simpl.
    match goal with
    | |- context [prepare_ord t name ?a ?b _ _] =>
        destruct (prepare_ord_ok t name a b (Some (index, variants)) SkipParen Ht) as [path' [_ Hpo]]
    end.
    destruct Ht as [-> | ->]; (rewrite Hpo; simpl; do 3 eexists; split; [reflexivity|auto]).
  - unfold build_for_unit.
    destruct (prepare_ord_ok t name [] [] (Some (index, variants)) SkipNone Ht) as [path' [_ Hpo]].
    destruct Ht as [-> | ->]; (rewrite Hpo; simpl; do 3 eexists; split; [reflexivity|auto]).
Qed.

Lemma variant_arms_ord t name variants : forall vs index,
  t = Ord \/ t = PartialOrd -> forallb (fun v => fields_wf (v_fields v)) vs = true ->
  exists arms, variant_arms t name variants index vs = Ok arms /\
    length arms = length vs /\
    forall n v, nth_error vs n = Some v ->
      exists p po body,
        nth_error arms n =
          Some (ArmOrd p po body
                  (other_arms name (skip_of (v_fields v)) (index + n)
                     (wrap_ordering t Datatypes.Lt) (wrap_ordering t Datatypes.Eq)
                     (wrap_ordering t Datatypes.Gt) 0 variants)) /\
        pat_path p = [name; v_ident v] /\ pat_path po = [name; v_ident v].
Proof.
  induction vs as [|v vs IH]; intros index Ht Hwf.
  - exists []; repeat split; auto; intros [] ? H; discriminate.
  - simpl in Hwf; apply andb_true_iff in Hwf as [Hv Hvs].
    destruct (variant_build_ord t name variants index v Ht Hv) as (p & po & body & Hb & Hpp & Hppo).
    destruct (IH (S index) Ht Hvs) as (arms & Ha & Hlen & Hnth).
    exists (ArmOrd p po body
              (other_arms name (skip_of (v_fields v)) index (wrap_ordering t Datatypes.Lt)
                 (wrap_ordering t Datatypes.Eq) (wrap_ordering t Datatypes.Gt) 0 variants) :: arms).
    simpl; rewrite Hb; simpl; rewrite Ha; simpl.
    split; [reflexivity|]; split; [rewrite Hlen; reflexivity|].
    intros [|n] w Hw; simpl in Hw.
    + inversion Hw; subst; rewrite Nat.add_0_r; simpl; exists p, po, body; auto.
    + destruct (Hnth n w Hw) as (p' & po' & body' & Hn & H1 & H2).
      replace (index + S n) with (S index + n) by lia; simpl; eauto.
Qed.

Lemma other_arms_find name skip i less equal greater : forall vs k j vj,
  NoDup vs -> nth_error vs j = Some vj -> i <> k + j ->
  find (fun oa => path_eqb (oa_pattern oa) [name; vj])
    (other_arms name skip i less equal greater k vs) =
  Some {| oa_pattern := [name; vj]; oa_skip := skip;
          oa_result := select_ordering (Nat.compare i (k + j)) less equal greater |}.
Proof.
  induction vs as [|v vs IH]; intros k j vj Hnd Hj Hne; [destruct j; discriminate|].
  inversion Hnd as [|? ? Hnotin Hnd']; subst.
  destruct j as [|j]; simpl in Hj.
  - inversion Hj; subst; rewrite Nat.add_0_r in *; simpl.
    apply Nat.eqb_neq in Hne; rewrite Hne; simpl.
    rewrite !String.eqb_refl; reflexivity.
  - assert (Hv : v <> vj) by (intros ->; apply Hnotin; eapply nth_error_In; eauto).
    assert (Hp : String.eqb v vj = false) by (apply String.eqb_neq; auto).
    rewrite <- plus_n_Sm in Hne |- *; change (S (k + j)) with (S k + j) in Hne |- *.
    simpl; destruct (Nat.eqb i k); simpl; [|rewrite String.eqb_refl, Hp; simpl]; exact (IH (S k) j vj Hnd' Hj Hne).
Qed.

Lemma nodup_map_neq {A B} (f : A -> B) (l : list A) i j x y :
  NoDup (map f l) -> nth_error l i = Some x -> nth_error l j = Some y -> i <> j -> f x <> f y.
Proof.
  intros Hnd Hi Hj Hij Hxy.
  apply (proj1 (NoDup_nth_error (map f l))) with (i := i) (j := j) in Hnd; auto.
  - rewrite length_map; apply nth_error_Some; congruence.
  - rewrite !nth_error_map, Hi, Hj; simpl; congruence.
Qed.

(** The sample enum [enum E { A, B(_, _), C { x: _ } }]. *)
Definition sample_enum : list Variant :=
  [{| v_ident := "A"; v_fields := FUnit |};
   {| v_ident := "B"; v_fields := FUnnamed [{| field_ident := None |}; {| field_ident := None |}] |};
   {| v_ident := "C"; v_fields := FNamed [{| field_ident := Some "x" |}] |}].

Lemma sample_enum_nodup : NoDup (map v_ident sample_enum).
Proof. simpl; repeat constructor; simpl; intuition discriminate. Qed.

Lemma other_arms_in name skip i less equal greater : forall vs k oa,
  In oa (other_arms name skip i less equal greater k vs) ->
  exists j s, nth_error vs j = Some s /\ i <> k + j /\
    oa_pattern oa = [name; s] /\ oa_skip oa = skip.
Proof.
  induction vs as [|v vs IH]; simpl; intros k oa H; [contradiction|].
  apply in_app_or in H as [H|H].
  - destruct (Nat.eqb i k) eqn:E; simpl in H; [contradiction|].
    destruct H as [<-|[]]; apply Nat.eqb_neq in E.
    exists 0, v; rewrite Nat.add_0_r; auto.
  - destruct (IH (S k) oa H) as (j & s & Hj & Hne & Hp & Hs).
    exists (S j), s; split; [exact Hj|]; split; [lia|auto].
Qed.

Lemma nodup_map_index {A B} (f : A -> B) (l : list A) i j x y :
  NoDup (map f l) -> nth_error l i = Some x -> nth_error l j = Some y -> f x = f y -> i = j.
Proof.
  intros Hnd Hi Hj Hxy; destruct (Nat.eq_dec i j) as [|Hij]; [assumption|].
  exfalso; exact (nodup_map_neq f l i j x y Hnd Hi Hj Hij Hxy).
Qed.

Lemma variant_of_nth name vs j vj :
  NoDup (map v_ident vs) -> nth_error vs j = Some vj ->
  variant_of name vs [name; v_ident vj] = Some vj.
Proof.
  intros Hnd Hj; unfold variant_of.
  destruct (find _ vs) as [v|] eqn:E.
  - apply find_some in E as [Hin Hp]; apply path_eqb_eq in Hp; inversion Hp as [Hid].
    apply In_nth_error in Hin as [k Hk].
    pose proof (nodup_map_index v_ident vs k j v vj Hnd Hk Hj Hid); subst k; congruence.
  - exfalso; eapply find_none in E; [|eapply nth_error_In; exact Hj].
    rewrite path_eqb_refl in E; discriminate.
Qed.

Lemma find_arm_nth name vs arms i vi a :
  NoDup (map v_ident vs) -> length arms = length vs ->
  (forall n a' v, nth_error arms n = Some a' -> nth_error vs n = Some v ->
     arm_path a' = [name; v_ident v]) ->
  nth_error vs i = Some vi -> nth_error arms i = Some a ->
  find (fun a' => path_eqb (arm_path a') [name; v_ident vi]) arms = Some a.
Proof.
  intros Hnd Hlen Hpath Hi Ha.
  destruct (find _ arms) as [b|] eqn:E.
  - apply find_some in E as [Hin Hp]; apply path_eqb_eq in Hp.
    apply In_nth_error in Hin as [k Hk].
    destruct (nth_error vs k) as [vk|] eqn:Hvk.
    + rewrite (Hpath k b vk Hk Hvk) in Hp; inversion Hp as [Hid].
      pose proof (nodup_map_index v_ident vs k i vk vi Hnd Hvk Hi Hid); subst k; congruence.
    + apply nth_error_None in Hvk; rewrite <- Hlen in Hvk.
      assert (nth_error arms k <> None) by congruence.
      apply nth_error_Some in H; lia.
  - exfalso; eapply find_none in E; [|eapply nth_error_In; exact Ha].
    rewrite (Hpath i a vi Ha Hi), path_eqb_refl in E; discriminate.
Qed.

Lemma select_cross (t : Trait) i j :
  i <> j ->
  select_ordering (Nat.compare i (0 + j)) (wrap_ordering t Datatypes.Lt)
    (wrap_ordering t Datatypes.Eq) (wrap_ordering t Datatypes.Gt) =
  wrap_ordering t (if i <? j then Datatypes.Lt else Datatypes.Gt).
Proof.
  intros Hij; simpl; destruct (Nat.ltb_spec i j) as [H|H].
  - apply Nat.compare_lt_iff in H; rewrite H; reflexivity.
  - assert (H' : j < i) by lia; apply Nat.compare_gt_iff in H'; rewrite H'; reflexivity.
Qed.

(** ** C1 *)

(** C1: for every enum and for [Ord] and [PartialOrd], the arm generated
    for the variant at index [i] holds, for the variant at index [j <> i],
    a cross-variant pattern [name::vj skip] whose result token is [Less]
    when [i < j] and [Greater] when [i > j] (wrapped in [Some] for
    [PartialOrd]); but its [skip] is that of variant [i], not of variant
    [j].  The arms pass the compiler's pattern checks exactly when the
    trait is [PartialOrd] ([cmp] matches [(self, __other)] against
    single patterns) and every variant's [skip] fits every other variant;
    only then does the generated method return those tokens, whatever the
    fields compare to ([call] is arbitrary). *)
Theorem enum_cross_variant_skip t name vs :
  t = Ord \/ t = PartialOrd ->
  NoDup (map v_ident vs) ->
  data_wf (DEnum vs) = true ->
  vs <> [] ->
  exists m,
    generate_body t name (DEnum vs) = Ok m /\
    (forall i j vi vj, nth_error vs i = Some vi -> nth_error vs j = Some vj -> i <> j ->
       exists p po body other oa,
         nth_error (method_arms m) i = Some (ArmOrd p po body other) /\
         pat_path p = [name; v_ident vi] /\
         find (fun oa => path_eqb (oa_pattern oa) [name; v_ident vj]) other = Some oa /\
         oa_pattern oa = [name; v_ident vj] /\
         oa_skip oa = skip_of (v_fields vi) /\
         oa_result oa = wrap_ordering t (if i <? j then Datatypes.Lt else Datatypes.Gt)) /\
    (match_patterns_fit name vs m = true <->
       t = PartialOrd /\
       forall i j vi vj, nth_error vs i = Some vi -> nth_error vs j = Some vj -> i <> j ->
         skip_fits (skip_of (v_fields vi)) (v_fields vj) = true) /\
    (forall i j vi vj, nth_error vs i = Some vi -> nth_error vs j = Some vj -> i <> j ->
       forall call,
         eval_ord_method name vs m [name; v_ident vi] [name; v_ident vj] call =
           if match_patterns_fit name vs m
           then Some (denote (wrap_ordering t (if i <? j then Datatypes.Lt else Datatypes.Gt)))
           else None).
Proof.
  intros Ht Hnd Hwf Hne.
  destruct (variant_arms_ord t name (map v_ident vs) vs 0 Ht Hwf) as (arms & Ha & Hlen & Hnth).
  assert (Hgen : generate_body t name (DEnum vs) =
                 Ok (match t with PartialOrd => MPartialOrd arms | _ => MOrd arms end))
    by (unfold generate_body; rewrite Ha; simpl; unfold build_signature;
        destruct Ht as [-> | ->]; reflexivity).
  assert (Hm : method_arms (match t with PartialOrd => MPartialOrd arms | _ => MOrd arms end) = arms)
    by (destruct Ht as [-> | ->]; reflexivity).
  (* the cross-variant arm of variant [i] for variant [j] *)
  assert (HA : forall i j vi vj, nth_error vs i = Some vi -> nth_error vs j = Some vj -> i <> j ->
     exists p po body,
       nth_error arms i = Some (ArmOrd p po body
         (other_arms name (skip_of (v_fields vi)) (0 + i) (wrap_ordering t Datatypes.Lt)
            (wrap_ordering t Datatypes.Eq) (wrap_ordering t Datatypes.Gt) 0 (map v_ident vs))) /\
       pat_path p = [name; v_ident vi] /\ pat_path po = [name; v_ident vi] /\
       find (fun oa => path_eqb (oa_pattern oa) [name; v_ident vj])
         (other_arms name (skip_of (v_fields vi)) (0 + i) (wrap_ordering t Datatypes.Lt)
            (wrap_ordering t Datatypes.Eq) (wrap_ordering t Datatypes.Gt) 0 (map v_ident vs)) =
       Some {| oa_pattern := [name; v_ident vj]; oa_skip := skip_of (v_fields vi);
               oa_result := wrap_ordering t (if i <? j then Datatypes.Lt else Datatypes.Gt) |}).
  { intros i j vi vj Hi Hj Hij.
    destruct (Hnth i vi Hi) as (p & po & body & Hn & Hp & Hpo).
    exists p, po, body; split; [exact Hn|]; split; [exact Hp|]; split; [exact Hpo|].
    rewrite (other_arms_find name (skip_of (v_fields vi)) (0 + i) _ _ _ (map v_ident vs) 0 j (v_ident vj));
      [|exact Hnd|rewrite nth_error_map, Hj; reflexivity|simpl; exact Hij].
    rewrite (select_cross t (0 + i) j) by (simpl; exact Hij); reflexivity. }
  (* the patterns checks *)
  assert (HB : match_patterns_fit name vs (match t with PartialOrd => MPartialOrd arms | _ => MOrd arms end) = true <->
       t = PartialOrd /\
       forall i j vi vj, nth_error vs i = Some vi -> nth_error vs j = Some vj -> i <> j ->
         skip_fits (skip_of (v_fields vi)) (v_fields vj) = true).
  { unfold match_patterns_fit; rewrite Hm, forallb_forall; split.
    - intros Hall.
      assert (Htp : t = PartialOrd).
      { destruct vs as [|v0 vs']; [contradiction|].
        destruct (Hnth 0 v0 eq_refl) as (p & po & body & Hn & _ & _).
        specialize (Hall _ (nth_error_In _ _ Hn)).
        destruct Ht as [-> | ->]; [discriminate|reflexivity]. }
      split; [exact Htp|].
      intros i j vi vj Hi Hj Hij.
      destruct (HA i j vi vj Hi Hj Hij) as (p & po & body & Hn & _ & _ & Hf).
      specialize (Hall _ (nth_error_In _ _ Hn)); apply andb_true_iff in Hall as [_ Hall].
      rewrite forallb_forall in Hall.
      specialize (Hall _ (proj1 (find_some _ _ Hf))).
      unfold other_arm_fits in Hall; simpl in Hall.
      rewrite (variant_of_nth name vs j vj Hnd Hj) in Hall; exact Hall.
    - intros [Htp Hfit] a Hin.
      apply In_nth_error in Hin as [n Hn].
      destruct (nth_error vs n) as [v|] eqn:Hv.
      2:{ exfalso; apply nth_error_None in Hv; rewrite <- Hlen in Hv.
          assert (nth_error arms n <> None) by congruence.
          apply nth_error_Some in H; lia. }
      destruct (Hnth n v Hv) as (p & po & body & Hn' & _ & _).
      rewrite Hn in Hn'; inversion Hn'; subst a t; simpl.
      apply forallb_forall; intros oa Hoa.
      destruct (other_arms_in name _ _ _ _ _ _ _ _ Hoa) as (j & s & Hs & Hij & Hp & Hsk).
      rewrite nth_error_map in Hs.
      destruct (nth_error vs j) as [vj|] eqn:Hj; [|discriminate]; inversion Hs; subst s.
      unfold other_arm_fits; rewrite Hp, (variant_of_nth name vs j vj Hnd Hj), Hsk.
      exact (Hfit n j v vj Hv Hj Hij). }
  exists (match t with PartialOrd => MPartialOrd arms | _ => MOrd arms end).
  split; [exact Hgen|]; split; [|split; [exact HB|]].
  - intros i j vi vj Hi Hj Hij.
    destruct (HA i j vi vj Hi Hj Hij) as (p & po & body & Hn & Hp & _ & Hf).
    rewrite Hm; do 5 eexists; split; [exact Hn|]; split; [exact Hp|]; split; [exact Hf|].
    simpl; auto.
  - intros i j vi vj Hi Hj Hij call.
    unfold eval_ord_method.
    destruct (match_patterns_fit _ _ _) eqn:Hf; [|reflexivity].
    destruct (proj1 HB eq_refl) as [Htp _]; subst t.
    destruct (HA i j vi vj Hi Hj Hij) as (p & po & body & Hn & Hp & Hpo & Hfo).
    assert (Hpath : forall n a' v, nth_error arms n = Some a' -> nth_error vs n = Some v ->
                    arm_path a' = [name; v_ident v]).
    { intros n a' v Ha' Hv.
      destruct (Hnth n v Hv) as (p' & po' & body' & Hn' & Hp' & _).
      rewrite Ha' in Hn'; inversion Hn'; subst; exact Hp'. }
    rewrite (find_arm_nth name vs arms i vi _ Hnd Hlen Hpath Hi Hn).
    unfold eval_ord_arm; rewrite Hpo.
    assert (Hneq : v_ident vj <> v_ident vi)
      by (apply not_eq_sym; eapply nodup_map_neq; eauto).
    replace (path_eqb [name; v_ident vj] [name; v_ident vi]) with false
      by (symmetry; destruct (path_eqb _ _) eqn:E; auto;
          apply path_eqb_eq in E; inversion E; contradiction).
    rewrite Hfo; reflexivity.
Qed.

Lemma enum_cross_variant_skip_witness :
  (PartialOrd = Ord \/ PartialOrd = PartialOrd) /\
  NoDup (map v_ident sample_enum) /\
  data_wf (DEnum sample_enum) = true /\
  sample_enum <> [] /\
  exists m,
    generate_body PartialOrd "E" (DEnum sample_enum) = Ok m /\
    (forall i j vi vj, nth_error sample_enum i = Some vi -> nth_error sample_enum j = Some vj ->
       i <> j ->
       exists p po body other oa,
         nth_error (method_arms m) i = Some (ArmOrd p po body other) /\
         pat_path p = ["E"; v_ident vi] /\
         find (fun oa => path_eqb (oa_pattern oa) ["E"; v_ident vj]) other = Some oa /\
         oa_pattern oa = ["E"; v_ident vj] /\
         oa_skip oa = skip_of (v_fields vi) /\
         oa_result oa = wrap_ordering PartialOrd (if i <? j then Datatypes.Lt else Datatypes.Gt)) /\
    (match_patterns_fit "E" sample_enum m = true <->
       PartialOrd = PartialOrd /\
       forall i j vi vj, nth_error sample_enum i = Some vi -> nth_error sample_enum j = Some vj ->
         i <> j -> skip_fits (skip_of (v_fields vi)) (v_fields vj) = true) /\
    (forall i j vi vj, nth_error sample_enum i = Some vi -> nth_error sample_enum j = Some vj ->
       i <> j -> forall call,
         eval_ord_method "E" sample_enum m ["E"; v_ident vi] ["E"; v_ident vj] call =
           if match_patterns_fit "E" sample_enum m
           then Some (denote (wrap_ordering PartialOrd (if i <? j then Datatypes.Lt else Datatypes.Gt)))
           else None).
Proof.
  split; [right; reflexivity|]; split; [exact sample_enum_nodup|]; split; [reflexivity|].
  split; [discriminate|].
  apply (enum_cross_variant_skip PartialOrd "E" sample_enum);
    [right; reflexivity|exact sample_enum_nodup|reflexivity|discriminate].
Defined.

(** On [sample_enum] the derived [partial_cmp] does not pass the checks:
    the arm of the unit variant [A] holds [E::B => ..] and [E::C => ..],
    that of the tuple variant [B] holds [E::A(..) => ..]. *)
Lemma sample_enum_partial_cmp_patterns :
  exists m, generate_body PartialOrd "E" (DEnum sample_enum) = Ok m /\
    match_patterns_fit "E" sample_enum m = false /\
    skip_fits (skip_of FUnit) (v_fields (nth 1 sample_enum {| v_ident := ""; v_fields := FUnit |})) = false.
Proof. eexists; split; [vm_compute; reflexivity|]; split; vm_compute; reflexivity. Qed.

(** ** Hashing *)

(** The bindings of a shape, in declaration order, as [build_for_*]
    names them. *)
Definition field_temps (f : Fields) : list string :=
  match f with
  | FNamed fs =>
      map (fun fd => format_ident "__" (match field_ident fd with Some i => i | None => "" end)) fs
  | FUnnamed fs => map (fun i => format_ident "__" (nat_to_string i)) (seq 0 (length fs))
  | FUnit => []
  end.

(** The constructor paths of an item with their shapes: [Name] for a
    struct, [Name::Variant] for each variant. *)
Definition shapes_of (name : string) (d : Data) : list (list string * Fields) :=
  match d with
  | DStruct f => [([name], f)]
  | DEnum vs => map (fun v => ([name; v_ident v], v_fields v)) vs
  | DUnion => []
  end.

Lemma field_idents_map fs ids :
  field_idents fs = Ok ids ->
  ids = map (fun fd => match field_ident fd with Some i => i | None => "" end) fs.
Proof.
  revert ids; induction fs as [|f fs IH]; simpl; intros ids H.
  - inversion H; reflexivity.
  - destruct (field_ident f) as [i|]; simpl in H; [|discriminate].
    apply bind_ok in H as [is [Hi Hk]]; inversion Hk; subst; f_equal; auto.
Qed.

Lemma build_hash debug_name name pattern variants f :
  fields_wf f = true ->
  exists p hp,
    match f with
    | FNamed fs => build_for_struct Hash debug_name name pattern variants fs
    | FUnnamed fs => build_for_tuple Hash debug_name name pattern variants fs
    | FUnit => build_for_unit Hash debug_name name pattern variants
    end = Ok [ArmHash p hp (field_temps f)] /\ pat_path p = pattern.
Proof.
  intros Hwf; destruct f as [fs|fs|]; simpl.
  - destruct (field_idents_ok fs Hwf) as [ids Hids].
    unfold build_for_struct; simpl; rewrite Hids; simpl.
    apply field_idents_map in Hids; subst ids; rewrite map_map.
    do 2 eexists; split; reflexivity.
  - do 2 eexists; split; reflexivity.
  - do 2 eexists; split; reflexivity.
Qed.

Definition hash_arm_of (name : string) (a : Arm) (v : Variant) : Prop :=
  exists p hp, a = ArmHash p hp (field_temps (v_fields v)) /\ pat_path p = [name; v_ident v].

Lemma variant_arms_hash name variants : forall vs index,
  forallb (fun v => fields_wf (v_fields v)) vs = true ->
  exists arms, variant_arms Hash name variants index vs = Ok arms /\
    Forall2 (hash_arm_of name) arms vs.
Proof.
  induction vs as [|v vs IH]; intros index Hwf.
  - exists []; split; [reflexivity|constructor].
  - simpl in Hwf; apply andb_true_iff in Hwf as [Hv Hvs].
    destruct (build_hash (v_ident v) name [name; v_ident v] (Some (index, variants)) (v_fields v) Hv)
      as (p & hp & Hb & Hp).
    destruct (IH (S index) Hvs) as (arms & Ha & Hf).
    exists (ArmHash p hp (field_temps (v_fields v)) :: arms); split.
    + cbn [variant_arms]; rewrite Hb; cbn [bind]; rewrite Ha; reflexivity.
    + constructor; auto; exists p, hp; auto.
Qed.

Lemma find_hash_arm name : forall arms vs k v,
  Forall2 (hash_arm_of name) arms vs ->
  NoDup (map (fun v => [name; v_ident v]) vs) ->
  nth_error vs k = Some v ->
  exists p hp, find (fun a => path_eqb (arm_path a) [name; v_ident v]) arms =
               Some (ArmHash p hp (field_temps (v_fields v))).
Proof.
  intros arms vs k v Hf; revert k v.
  induction Hf as [|a w arms vs Ha Hf IH]; intros k v Hnd Hk; [destruct k; discriminate|].
  inversion Hnd as [|? ? Hnotin Hnd']; subst.
  destruct Ha as (p & hp & -> & Hp).
  destruct k as [|k]; simpl in Hk |- *.
  - inversion Hk; subst; rewrite Hp, path_eqb_refl; eauto.
  - assert (Hne : path_eqb [name; v_ident w] [name; v_ident v] = false).
    { destruct (path_eqb _ _) eqn:E; auto; apply path_eqb_eq in E.
      exfalso; apply Hnotin; rewrite E; apply in_map_iff; exists v; split; auto.
      eapply nth_error_In; eauto. }
    rewrite Hp, Hne; eapply IH; eauto.
Qed.

(** ** C3 *)

(** C3 fails on a struct: the generated [hash] of
    [struct S { a: _ }] feeds the discriminant to the hasher before the
    field, although [S] is not an enum. *)
Lemma hash_struct_hashes_discriminant :
  exists m,
    generate_body Hash "S" (DStruct (FNamed [{| field_ident := Some "a" |}])) = Ok m /\
    hash_trace m ["S"] = Some [HDiscriminant; HField "__a"].
Proof. eexists; split; reflexivity. Qed.

(** C3, as the code does it: for every supported shape (struct or enum
    with distinct variant names), the generated [hash] feeds
    [discriminant(self)] to the hasher first, whatever the shape, then
    every field of the matched constructor in declaration order. *)
Theorem hash_discriminant_then_fields name d :
  data_wf d = true ->
  d <> DStruct FUnit -> d <> DUnion ->
  NoDup (map fst (shapes_of name d)) ->
  exists m,
    generate_body Hash name d = Ok m /\
    forall path f, In (path, f) (shapes_of name d) ->
      hash_trace m path = Some (HDiscriminant :: map HField (field_temps f)).
Proof.
  intros Hwf Hu Hun Hnd.
  destruct d as [f|vs|]; [|  |contradiction].
  - destruct (build_hash name name [name] None f Hwf) as (p & hp & Hb & Hp).
    destruct f as [fs|fs|]; [| |contradiction];
      (eexists; split; [unfold generate_body; rewrite Hb; reflexivity|]);
      intros path g [Hin|[]]; inversion Hin; subst; simpl; rewrite Hp, path_eqb_refl; reflexivity.
  - simpl in Hwf.
    destruct (variant_arms_hash name (map v_ident vs) vs 0 Hwf) as (arms & Ha & Hf).
    eexists; split; [unfold generate_body; rewrite Ha; reflexivity|].
    intros path f Hin; simpl in Hin, Hnd; rewrite map_map in Hnd; simpl in Hnd.
    apply in_map_iff in Hin as [v [Hv Hin]]; inversion Hv; subst.
    apply In_nth_error in Hin as [k Hk].
    destruct (find_hash_arm name arms vs k v Hf Hnd Hk) as (p & hp & Hfind).
    simpl; rewrite Hfind; reflexivity.
Qed.

Lemma hash_discriminant_then_fields_witness :
  data_wf (DEnum sample_enum) = true /\ DEnum sample_enum <> DStruct FUnit /\
  DEnum sample_enum <> DUnion /\ NoDup (map fst (shapes_of "E" (DEnum sample_enum))) /\
  exists m,
    generate_body Hash "E" (DEnum sample_enum) = Ok m /\
    forall path f, In (path, f) (shapes_of "E" (DEnum sample_enum)) ->
      hash_trace m path = Some (HDiscriminant :: map HField (field_temps f)).
Proof.
  assert (Hnd : NoDup (map fst (shapes_of "E" (DEnum sample_enum))))
    by (simpl; repeat constructor; simpl; intuition discriminate).
  split; [reflexivity|]; split; [discriminate|]; split; [discriminate|]; split; [exact Hnd|].
  apply hash_discriminant_then_fields; [reflexivity|discriminate|discriminate|exact Hnd].
Defined.

(** ** Equality *)

Lemma fold_and_forallb (eq_call : string -> string -> bool) pairs c :
  fold_left (fun c '(a, b) => c && eq_call a b) pairs c =
  c && forallb (fun p => eq_call (fst p) (snd p)) pairs.
Proof.
  revert c; induction pairs as [|[a b] ps IH]; intros c; simpl.
  - rewrite andb_true_r; reflexivity.
  - rewrite IH, andb_assoc; reflexivity.
Qed.

(** ** C4 *)

(** C4 (the generated [eq] of a struct with named fields): the arm
    accumulates [__cmp &= eq(a, b)] over the fields, so [__cmp] ends as
    the conjunction of the field equalities, but the arm is a block
    without tail expression: the value of [eq] is the unit value, not
    [__cmp]. *)
Theorem partial_eq_struct_returns_unit name fs (eq_call : string -> string -> bool) :
  fields_wf (FNamed fs) = true ->
  exists m,
    generate_body PartialEq name (DStruct (FNamed fs)) = Ok m /\
    eval_eq m [name] [name] eq_call =
      Some (EVUnit,
            forallb (fun p => eq_call (fst p) (snd p))
              (combine (field_temps (FNamed fs))
                 (map (fun fd => format_ident "__other_"
                                   (match field_ident fd with Some i => i | None => "" end)) fs))).
Proof.
  intros Hwf; destruct (field_idents_ok fs Hwf) as [ids Hids].
  pose proof (field_idents_map _ _ Hids) as Hmap.
  eexists; split.
  - unfold generate_body; cbn [bind]; unfold build_for_struct; simpl; rewrite Hids; reflexivity.
  - simpl; rewrite !String.eqb_refl; simpl.
    rewrite fold_and_forallb; simpl; subst ids; rewrite !map_map; reflexivity.
Qed.

Lemma partial_eq_struct_returns_unit_witness :
  fields_wf (FNamed [{| field_ident := Some "a" |}]) = true /\
  exists m,
    generate_body PartialEq "Test" (DStruct (FNamed [{| field_ident := Some "a" |}])) = Ok m /\
    eval_eq m ["Test"] ["Test"] (fun _ _ => true) =
      Some (EVUnit,
            forallb (fun p => (fun _ _ => true) (fst p) (snd p))
              (combine (field_temps (FNamed [{| field_ident := Some "a" |}]))
                 (map (fun fd => format_ident "__other_"
                                   (match field_ident fd with Some i => i | None => "" end))
                    [{| field_ident := Some "a" |}]))).
Proof.
  split; [reflexivity|].
  apply (partial_eq_struct_returns_unit "Test" [{| field_ident := Some "a" |}] (fun _ _ => true)).
  reflexivity.
Defined.

(** ** Discriminant resolution *)

Import Item.

(** All identifiers listed by the [repr] attributes, in order; fails at
    the first [repr] attribute that is not a list of identifiers. *)
Fixpoint repr_idents (attrs : list Attribute) : Res (list string) :=
  match attrs with
  | [] => Ok []
  | a :: rest =>
      if is_ident (attr_path a) "repr" then
        match meta a with
        | MetaList _ tokens =>
            ids <- idents_terminated tokens ;;
            rest_ids <- repr_idents rest ;; Ok (ids ++ rest_ids)
        | _ => Err ERepr
        end
      else repr_idents rest
  end.

Definition no_width (ids : list string) : Prop :=
  forall i, In i ids -> representation_parse i = None.

(** What a scan from state [(h, c)] over the identifiers [ids] ends in. *)
Definition scan_inv (h : option Representation) (c : bool) (ids : list string)
    (h' : option Representation) (c' : bool) : Prop :=
  (h' = None <-> h = None /\ no_width ids) /\
  (forall r, h' = Some r -> h = Some r \/ exists i, In i ids /\ representation_parse i = Some r) /\
  (h' = None -> (c' = true <-> c = true \/ In "C" ids)).

Lemma scan_inv_app h c l1 h1 c1 l2 h2 c2 :
  scan_inv h c l1 h1 c1 -> scan_inv h1 c1 l2 h2 c2 -> scan_inv h c (l1 ++ l2) h2 c2.
Proof.
  unfold scan_inv, no_width; intros (A1 & B1 & C1) (A2 & B2 & C2).
  split; [|split].
  - rewrite A2, A1; split.
    + intros [[Hh Hw1] Hw2]; split; auto; intros i Hi; apply in_app_or in Hi as [Hi|Hi]; auto.
    + intros [Hh Hw]; split; [split|]; auto; intros i Hi; apply Hw, in_or_app; auto.
  - intros r Hr; destruct (B2 r Hr) as [H|[i [Hi Hp]]].
    + destruct (B1 r H) as [H'|[i [Hi Hp]]]; auto; right; exists i; split; auto; apply in_or_app; auto.
    + right; exists i; split; auto; apply in_or_app; auto.
  - intros Hn; assert (Hh1 : h1 = None) by (apply A2 in Hn; tauto).
    rewrite (C2 Hn), (C1 Hh1); rewrite in_app_iff; tauto.
Qed.

Lemma scan_idents_inv ids : forall h c,
  let '(h', c') := scan_idents ids h c in scan_inv h c ids h' c'.
Proof.
  unfold scan_inv, no_width.
  induction ids as [|i ids IH]; intros h c; simpl.
  - split; [|split]; [split; [intros ->; split; auto; intros _ []|tauto]|auto|tauto].
  - destruct (String.eqb i "C") eqn:EC.
    + apply String.eqb_eq in EC; subst i.
      specialize (IH h true); destruct (scan_idents ids h true) as [h' c'].
      destruct IH as (A & B & C); split; [|split].
      * rewrite A; split; intros [Hh Hw]; split; auto.
        -- intros j [<-|Hj]; [reflexivity|auto].
      * intros r Hr; destruct (B r Hr) as [H|[j [Hj Hp]]]; auto; right; exists j; auto.
      * intros Hn; rewrite (C Hn); tauto.
    + destruct (representation_parse i) as [r|] eqn:Er.
      * split; [|split].
        -- split; [discriminate|intros [_ Hw]; rewrite (Hw i (or_introl eq_refl)) in Er; discriminate].
        -- intros r' Hr'; inversion Hr'; subst; right; exists i; auto.
        -- discriminate.
      * specialize (IH h c); destruct (scan_idents ids h c) as [h' c'].
        destruct IH as (A & B & C); split; [|split].
        -- rewrite A; split; intros [Hh Hw]; split; auto.
           intros j [<-|Hj]; auto.
        -- intros r Hr; destruct (B r Hr) as [H|[j [Hj Hp]]]; auto; right; exists j; auto.
        -- intros Hn; rewrite (C Hn); split; [intros [H|H]; auto|].
           intros [H|[H|H]]; auto; subst i; rewrite String.eqb_refl in EC; discriminate.
Qed.

Lemma idents_terminated_no_panic ts m : idents_terminated ts <> Panic m.
Proof.
  revert m; len_induction ts; intros m.
  destruct ts as [|t rest]; simpl; [discriminate|].
  destruct t; simpl; try discriminate.
  destruct (is_keyword s); simpl; [discriminate|].
  destruct rest as [|[] rest']; try discriminate.
  destruct (idents_terminated rest') eqn:Hr; simpl; try discriminate.
  intros Hm; inversion Hm; subst.
  eapply (IH rest'); [unfold ltof; simpl; lia|exact Hr].
Qed.

Lemma scan_attrs_spec attrs : forall h c,
  (forall e, scan_attrs attrs h c = Err e <-> repr_idents attrs = Err e) /\
  (forall m, scan_attrs attrs h c <> Panic m) /\
  (forall ids, repr_idents attrs = Ok ids ->
     exists h' c', scan_attrs attrs h c = Ok (h', c') /\ scan_inv h c ids h' c').
Proof.
  induction attrs as [|a rest IH]; intros h c; simpl.
  - split; [split; discriminate|split; [discriminate|]].
    intros ids H; inversion H; subst; exists h, c; split; auto.
    exact (scan_idents_inv [] h c).
  - destruct (is_ident (attr_path a) "repr").
    + destruct (meta a) as [p|p tokens|p v];
        try solve [split; [intros; split; congruence|split; intros; discriminate]].
      destruct (idents_terminated tokens) as [l|e|m] eqn:Hl; simpl.
      * pose proof (scan_idents_inv l h c) as Hs.
        destruct (scan_idents l h c) as [h1 c1].
        destruct (IH h1 c1) as (Ie & Ip & Io); split; [|split; auto].
        -- intros e; rewrite Ie; destruct (repr_idents rest); simpl; split; congruence.
        -- intros ids Hids; apply bind_ok in Hids as [rids [Hr Hk]]; inversion Hk; subst.
           destruct (Io rids Hr) as (h2 & c2 & Hsc & Hinv).
           exists h2, c2; split; auto; eapply scan_inv_app; eauto.
      * split; [intros; split; congruence|split; intros; discriminate].
      * exfalso; eapply idents_terminated_no_panic; eauto.
    + apply IH.
Qed.

(** ** C6 *)

(** C6 fails: [#[repr(align(8))] enum E { A, B }] has no integer width,
    only unit variants and no [C], yet resolution fails with a parse error
    (the [repr] arguments must be identifiers); and [enum E { A(), B }]
    has a tuple-shaped variant yet resolves to [UnitDefault], because
    unit-ness is [fields.is_empty()]. *)
Lemma discriminant_parse_counterexample :
  discriminant_parse [{| meta := MetaList ["repr"] [TIdent "align"; TGroup [TLit]] |}]
    [{| v_ident := "A"; v_fields := FUnit |}; {| v_ident := "B"; v_fields := FUnit |}]
  = Err (EExpected ",") /\
  discriminant_parse []
    [{| v_ident := "A"; v_fields := FUnnamed [] |}; {| v_ident := "B"; v_fields := FUnit |}]
  = Ok UnitDefault.
Proof. split; reflexivity. Qed.

(** C6, as the code does it: one variant gives [Single] without looking
    at the attributes.  Otherwise the [repr] attributes are read in
    order and resolution fails exactly as [repr_idents] does: with
    [ERepr] (InvalidDirective) at a [repr] that is not a parenthesised
    list, with a parse error at a list that is not comma-separated
    identifiers.  When they are all well formed the result is
    [UnitRepr]/[Repr] of a listed width when some width is listed
    (according to whether every variant has no fields), else
    [UnitDefault] when every variant has no fields and no [C] is listed,
    else [Unknown]. *)
Theorem discriminant_parse_amended attrs vs :
  (length vs = 1 -> discriminant_parse attrs vs = Ok Single) /\
  (length vs <> 1 ->
     (forall e, discriminant_parse attrs vs = Err e <-> repr_idents attrs = Err e) /\
     (forall m, discriminant_parse attrs vs <> Panic m) /\
     forall ids, repr_idents attrs = Ok ids ->
       exists d, discriminant_parse attrs vs = Ok d /\
       let is_unit := forallb (fun v => fields_is_empty (v_fields v)) vs in
       match d with
       | UnitRepr r => is_unit = true /\ exists i, In i ids /\ representation_parse i = Some r
       | Repr r => is_unit = false /\ exists i, In i ids /\ representation_parse i = Some r
       | UnitDefault => is_unit = true /\ no_width ids /\ ~ In "C" ids
       | Unknown => no_width ids /\ (is_unit = false \/ In "C" ids)
       | Single => False
       end).
Proof.
  unfold discriminant_parse; split.
  - intros H; rewrite H; reflexivity.
  - intros H; apply Nat.eqb_neq in H; rewrite H.
    destruct (scan_attrs_spec attrs None false) as (Ie & Ip & Io).
    split; [|split].
    + intros e; rewrite <- Ie; destruct (scan_attrs attrs None false) as [[? ?]| |]; simpl;
        split; congruence.
    + intros m; destruct (scan_attrs attrs None false) as [[? ?]|e|m'] eqn:E; simpl; try discriminate.
      exfalso; eapply Ip; eauto.
    + intros ids Hids; destruct (Io ids Hids) as (h' & c' & Hs & (A & B & C)).
      rewrite Hs; simpl; eexists; split; [reflexivity|]; simpl.
      destruct h' as [r|].
      * destruct (B r eq_refl) as [Hn|Hw]; [discriminate|].
        destruct (forallb _ vs); auto.
      * destruct (proj1 A eq_refl) as [_ Hw].
        assert (HC : c' = true <-> In "C" ids) by (rewrite C; intuition discriminate).
        destruct (forallb _ vs) eqn:Eu, c'; simpl.
        -- split; auto; right; apply HC; auto.
        -- split; [auto|split; auto]; intros Hc; apply HC in Hc; discriminate.
        -- split; auto.
        -- split; auto.
Qed.

(** ** C7 *)

(** C7 (first width wins): with two [repr] attributes, [#[repr(u8)]]
    then [#[repr(u16)]], the [break] only leaves the loop over the
    identifiers of the first attribute; the second attribute is still
    scanned and its width replaces the first. *)
Theorem discriminant_later_repr_wins :
  discriminant_parse
    [{| meta := MetaList ["repr"] [TIdent "u8"] |}; {| meta := MetaList ["repr"] [TIdent "u16"] |}]
    [{| v_ident := "A"; v_fields := FUnit |}; {| v_ident := "B"; v_fields := FUnit |}]
  = Ok (UnitRepr U16).
Proof. reflexivity. Qed.

(** ** No panics in the attribute parser *)

Definition no_panic {A} (r : Res A) : Prop := forall m, r <> Panic m.
Arguments no_panic {A} r : simpl never.

Lemma bind_no_panic {A B} (r : Res A) (k : A -> Res B) :
  no_panic r -> (forall a, r = Ok a -> no_panic (k a)) -> no_panic (bind r k).
Proof.
  intros Hr Hk m; destruct r as [a|e|m'] eqn:E; simpl.
  - apply Hk; reflexivity.
  - discriminate.
  - exfalso; apply (Hr m'); reflexivity.
Qed.

Lemma ok_no_panic {A} (a : A) : no_panic (Ok a).
Proof. intros m; discriminate. Qed.

Lemma err_no_panic {A} e : no_panic (A := A) (Err e).
Proof. intros m; discriminate. Qed.

Create HintDb nopanic.
#[local] Hint Resolve ok_no_panic err_no_panic : nopanic.

(** Split a [bind] and the [let '(_, _)] patterns of its continuation. *)
Ltac np_bind :=
  apply bind_no_panic; [|intros [? ?] _ || intros ? _].

Lemma parse_path_no_panic ts : no_panic (parse_path ts).
Proof. destruct ts as [|[] ?]; simpl; try destruct (segment_ok _); auto with nopanic. Qed.
#[local] Hint Resolve parse_path_no_panic : nopanic.

Lemma parse_bounds_no_panic fuel : forall ts, no_panic (parse_bounds fuel ts).
Proof.
  induction fuel as [|f IH]; intros ts; simpl; auto with nopanic.
  destruct ts as [|t r]; auto with nopanic.
  assert (H : no_panic (pr <- parse_path (t :: r);;
     let '(b, rest) := pr in
     match rest with
     | TPlus :: rest' => br <- parse_bounds f rest';; let '(bs, rest'') := br in Ok (b :: bs, rest'')
     | _ => Ok ([b], rest)
     end)).
  { np_bind; auto with nopanic.
    match goal with |- no_panic (match ?x with _ => _ end) => destruct x as [|[] ?] end;
      auto with nopanic.
    np_bind; auto. apply ok_no_panic. }
  destruct t; auto with nopanic.
Qed.
#[local] Hint Resolve parse_bounds_no_panic : nopanic.

Ltac np_solve :=
  repeat (simpl; match goal with
          | |- no_panic (bind _ _) => np_bind
          | |- no_panic (match ?x with _ => _ end) => destruct x
          end);
  simpl; auto with nopanic.

Lemma lifetime_bounds_no_panic ts : no_panic (lifetime_bounds ts).
Proof.
  len_induction ts.
  destruct ts as [|[] ts1]; simpl; auto with nopanic.
  destruct ts1 as [|[] ts2]; auto with nopanic.
  np_bind; [apply IH; unfold ltof; simpl; lia|apply ok_no_panic].
Qed.
#[local] Hint Resolve lifetime_bounds_no_panic : nopanic.

Lemma parse_where_predicate_no_panic ts : no_panic (parse_where_predicate ts).
Proof. unfold parse_where_predicate; np_solve. Qed.
#[local] Hint Resolve parse_where_predicate_no_panic : nopanic.

Lemma parse_generic_no_panic ts : no_panic (parse_generic ts).
Proof.
  unfold parse_generic.
  destruct (parse_where_predicate ts) as [[wp r]|e|m] eqn:E.
  - destruct wp; auto with nopanic.
  - np_solve.
  - exfalso; eapply parse_where_predicate_no_panic; eauto.
Qed.
#[local] Hint Resolve parse_generic_no_panic : nopanic.

Lemma generics_rest_no_panic fuel : forall ts, no_panic (generics_rest fuel ts).
Proof. induction fuel; intros ts; np_solve. Qed.
#[local] Hint Resolve generics_rest_no_panic : nopanic.

Lemma generics_nonempty_no_panic ts : no_panic (generics_nonempty ts).
Proof. unfold generics_nonempty; np_solve. Qed.
#[local] Hint Resolve generics_nonempty_no_panic : nopanic.

Lemma parse_trait_no_panic t : no_panic (parse_trait t).
Proof.
  destruct t; simpl; auto with nopanic; unfold trait_of_ident.
  repeat match goal with |- no_panic (if ?b then _ else _) => destruct b end; auto with nopanic.
Qed.
#[local] Hint Resolve parse_trait_no_panic : nopanic.

Lemma traits_terminated_no_panic ts : no_panic (traits_terminated ts).
Proof.
  len_induction ts.
  destruct ts as [|t rest]; simpl; auto with nopanic.
  np_bind; auto with nopanic.
  destruct rest as [|[] rest']; auto with nopanic.
  np_bind; auto with nopanic.
  apply (IH rest'); unfold ltof; simpl; lia.
Qed.
#[local] Hint Resolve traits_terminated_no_panic : nopanic.

Lemma parse_bounded_no_panic ts : no_panic (parse_bounded ts).
Proof. unfold parse_bounded; np_solve. Qed.
#[local] Hint Resolve parse_bounded_no_panic : nopanic.

Lemma parse_derive_where_no_panic ts : no_panic (parse_derive_where ts).
Proof.
  unfold parse_derive_where.
  destruct (traits_terminated ts) eqn:E; auto with nopanic.
  exfalso; eapply traits_terminated_no_panic; eauto.
Qed.
#[local] Hint Resolve parse_derive_where_no_panic : nopanic.

(** ** No panics in the generation of bodies *)

Lemma build_signature_no_panic t body : no_panic (build_signature t body).
Proof.
  unfold build_signature; destruct (trait_path_some t) as [p ->]; simpl; auto with nopanic.
Qed.
#[local] Hint Resolve build_signature_no_panic : nopanic.

Lemma prepare_ord_no_panic t item_ident temps others variants skip :
  t = Ord \/ t = PartialOrd ->
  no_panic (prepare_ord t item_ident temps others variants skip).
Proof.
  intros Ht; destruct (prepare_ord_ok t item_ident temps others variants skip Ht)
    as (p & _ & ->); auto with nopanic.
Qed.

Lemma build_for_struct_no_panic t debug_name item_ident pattern variants fs :
  fields_wf (FNamed fs) = true ->
  no_panic (build_for_struct t debug_name item_ident pattern variants fs).
Proof.
  intros Hwf; destruct (field_idents_ok fs Hwf) as [ids Hi].
  unfold build_for_struct; destruct (trait_path_some t) as [p Hp]; rewrite Hp; simpl.
  rewrite Hi; simpl.
  destruct t; simpl; auto with nopanic;
    (np_bind; [apply prepare_ord_no_panic; auto|intros; simpl; auto with nopanic]).
Qed.

Lemma build_for_tuple_no_panic t debug_name item_ident pattern variants fs :
  no_panic (build_for_tuple t debug_name item_ident pattern variants fs).
Proof.
  unfold build_for_tuple; destruct (trait_path_some t) as [p Hp]; rewrite Hp; simpl.
  destruct t; simpl; auto with nopanic;
    (np_bind; [apply prepare_ord_no_panic; auto|intros; simpl; auto with nopanic]).
Qed.

Lemma build_for_unit_no_panic t debug_name item_ident pattern variants :
  no_panic (build_for_unit t debug_name item_ident pattern variants).
Proof.
  unfold build_for_unit.
  destruct t; simpl; auto with nopanic;
    (np_bind; [apply prepare_ord_no_panic; auto|intros; simpl; auto with nopanic]).
Qed.
#[local] Hint Resolve build_for_struct_no_panic build_for_tuple_no_panic
  build_for_unit_no_panic : nopanic.

Lemma variant_arms_no_panic t name variants : forall vs index,
  forallb (fun v => fields_wf (v_fields v)) vs = true ->
  no_panic (variant_arms t name variants index vs).
Proof.
  induction vs as [|v vs IH]; intros index Hwf; simpl; auto with nopanic.
  simpl in Hwf; apply andb_prop in Hwf as [Hv Hvs].
  np_bind; [|intros; np_bind; [apply IH; auto|intros; auto with nopanic]].
  destruct (v_fields v); auto with nopanic.
Qed.
#[local] Hint Resolve variant_arms_no_panic : nopanic.

Lemma generate_body_no_panic t name d :
  data_wf d = true -> no_panic (generate_body t name d).
Proof.
  intros Hwf; unfold generate_body.
  np_bind; [|intros; auto with nopanic].
  destruct d as [[fs|fs|]|vs|]; simpl in *; auto with nopanic.
Qed.

(** ** The impl loop *)

Definition impl_of (dw_generics : option (list Generic)) (ident : string)
    (generics : Generics) (body : Method) (trait_ : Path) : ImplBlock :=
  {| impl_generics := params generics;
     impl_trait := trait_;
     impl_ident := ident;
     impl_where := build_where (where_clause generics) dw_generics trait_;
     impl_body := body |}.

(** A successful loop appends one impl per trait, in order. *)
Lemma impl_loop_ok dg ident g data traits : forall out impls,
  impl_loop dg ident g data traits out = Ok impls ->
  exists news, impls = out ++ news /\
    Forall2 (fun t ib => exists body p,
               generate_body t ident data = Ok body /\ trait_path t = Ok p /\
               ib = impl_of dg ident g body p) traits news.
Proof.
  induction traits as [|t ts IH]; intros out impls H; simpl in H.
  - inversion H; subst; exists []; rewrite app_nil_r; auto.
  - destruct (generate_body t ident data) as [body|e|m] eqn:Eb; simpl in H; try discriminate.
    destruct (trait_path t) as [p|e|m] eqn:Ep; simpl in H; try discriminate.
    destruct (IH _ _ H) as (news & -> & HF).
    exists (impl_of dg ident g body p :: news); split.
    + rewrite <- app_assoc; reflexivity.
    + constructor; eauto.
Qed.

(** A failing loop stops at the first trait whose body fails. *)
Lemma impl_loop_err dg ident g data traits : forall out e,
  impl_loop dg ident g data traits out = Err e ->
  exists pre t post, traits = pre ++ t :: post /\
    Forall (fun t => exists body, generate_body t ident data = Ok body) pre /\
    generate_body t ident data = Err e.
Proof.
  induction traits as [|t ts IH]; intros out e H; simpl in H; [discriminate|].
  destruct (generate_body t ident data) as [body|e'|m] eqn:Eb; simpl in H; try discriminate.
  - destruct (trait_path_some t) as [p Ep]; rewrite Ep in H; simpl in H.
    destruct (IH _ _ H) as (pre & t' & post & -> & HF & He).
    exists (t :: pre), t', post; split; [reflexivity|split; eauto].
  - inversion H; subst; exists [], t, ts; split; [reflexivity|split; auto].
Qed.

Lemma impl_loop_no_panic dg ident g data traits : forall out,
  (forall t, In t traits -> no_panic (generate_body t ident data)) ->
  no_panic (impl_loop dg ident g data traits out).
Proof.
  induction traits as [|t ts IH]; intros out H; simpl; auto with nopanic.
  np_bind; [apply H; left; auto|].
  intros; destruct (trait_path_some t) as [p ->]; simpl.
  apply IH; intros; apply H; right; auto.
Qed.

Lemma build_where_some wc gs p :
  build_where wc (Some gs) p =
    Some {| predicates := match wc with Some w => predicates w | None => [] end
                          ++ map (bound_predicate p) gs |}.
Proof.
  unfold build_where.
  assert (H : forall w, fold_left (fun w g => push_predicate w (bound_predicate p g)) gs w =
                        {| predicates := predicates w ++ map (bound_predicate p) gs |}).
  { induction gs as [|g gs IH]; intros [ps]; simpl.
    - rewrite app_nil_r; reflexivity.
    - rewrite IH; simpl; rewrite <- app_assoc; reflexivity. }
  rewrite H; destruct wc; reflexivity.
Qed.

Lemma Forall2_nth_left {A B} (R : A -> B -> Prop) l1 l2 :
  Forall2 R l1 l2 -> forall k a, nth_error l1 k = Some a ->
  exists b, nth_error l2 k = Some b /\ R a b.
Proof.
  induction 1 as [|x y l1 l2 Hxy HF IH]; intros [|k] a Hk; simpl in *; try discriminate.
  - inversion Hk; subst; eauto.
  - eauto.
Qed.

(** The orchestration, unfolded. *)
Lemma derive_where_internal_cases parse_item attr item :
  derive_where_internal parse_item attr item =
    match parse_derive_where attr with
    | Ok dw =>
        match parse_item item with
        | Ok di =>
            match impl_loop (generics dw) (di_ident di) (di_generics di) (di_data di) (traits dw) [] with
            | Ok impls => Ok {| out_item := item; out_impls := impls |}
            | Err e => Err e
            | Panic m => Panic m
            end
        | Err e => Err e
        | Panic m => Panic m
        end
    | Err e => Err e
    | Panic m => Panic m
    end.
Proof.
  unfold derive_where_internal.
  destruct (parse_derive_where attr); simpl; auto.
Qed.

(** A sample item [struct S<T> { a: T }] as the item parser returns it,
    and the attribute [T; Clone, Debug]. *)
Definition sample_input : DeriveInput :=
  {| di_ident := "S";
     di_generics := {| params := ["T"]; where_clause := None |};
     di_data := DStruct (FNamed [{| field_ident := Some "a" |}]) |}.

Definition sample_parse (item : list tok) : Res DeriveInput := Ok sample_input.

Definition sample_attr : list tok :=
  [TIdent "T"; TSemi; TIdent "Clone"; TComma; TIdent "Debug"].

(** ** C8 *)

(** C8: for every requested trait, the impl's where clause is the item's
    where clause unchanged when the attribute has no generics; with
    generics it is the item's predicates (or none) followed by one
    predicate per generic, the user's predicate verbatim for a custom
    bound and [ty: trait] for a bare type, built afresh from the item's
    clause for each trait, so nothing pushed for one trait reaches
    another. *)
Theorem derive_where_where_clauses parse_item attr item out :
  derive_where_internal parse_item attr item = Ok out ->
  exists dw di,
    parse_derive_where attr = Ok dw /\ parse_item item = Ok di /\
    length (out_impls out) = length (traits dw) /\
    forall k t, nth_error (traits dw) k = Some t ->
      exists p ib,
        trait_path t = Ok p /\ nth_error (out_impls out) k = Some ib /\
        impl_trait ib = p /\
        (generics dw = None -> impl_where ib = where_clause (di_generics di)) /\
        (forall gs, generics dw = Some gs ->
           impl_where ib =
             Some {| predicates :=
                       match where_clause (di_generics di) with
                       | Some w => predicates w
                       | None => []
                       end ++ map (bound_predicate p) gs |} /\
           forall g, In g gs ->
             bound_predicate p g =
               WPType (match g with
                       | CoustomBound tb => tb
                       | NoBound ty => {| bounded_ty := ty; bounds := [p] |}
                       end)).
Proof.
  rewrite derive_where_internal_cases.
  destruct (parse_derive_where attr) as [dw|e|m]; try discriminate.
  destruct (parse_item item) as [di|e|m]; try discriminate.
  destruct (impl_loop _ _ _ _ _ []) as [impls|e|m] eqn:El; intros H; inversion H; subst; clear H.
  destruct (impl_loop_ok _ _ _ _ _ _ _ El) as (news & Hn & HF); simpl in Hn; subst news.
  exists dw, di; split; [reflexivity|split; [reflexivity|split]].
  - simpl; symmetry; eapply Forall2_length; eauto.
  - intros k t Hk; simpl.
    destruct (Forall2_nth_left _ _ _ HF _ _ Hk) as (ib & Hib & body & p & _ & Hp & ->).
    exists p, (impl_of (generics dw) (di_ident di) (di_generics di) body p).
    split; [exact Hp|split; [exact Hib|split; [reflexivity|split]]].
    + intros Hg; unfold impl_of; simpl; rewrite Hg; reflexivity.
    + intros gs Hg; unfold impl_of; simpl; rewrite Hg, build_where_some; split; [reflexivity|].
      intros g _; reflexivity.
Qed.

Lemma derive_where_where_clauses_witness :
  exists out,
    derive_where_internal sample_parse sample_attr [] = Ok out /\
    exists dw di,
      parse_derive_where sample_attr = Ok dw /\ sample_parse [] = Ok di /\
      length (out_impls out) = length (traits dw) /\
      forall k t, nth_error (traits dw) k = Some t ->
        exists p ib,
          trait_path t = Ok p /\ nth_error (out_impls out) k = Some ib /\
          impl_trait ib = p /\
          (generics dw = None -> impl_where ib = where_clause (di_generics di)) /\
          (forall gs, generics dw = Some gs ->
             impl_where ib =
               Some {| predicates :=
                         match where_clause (di_generics di) with
                         | Some w => predicates w
                         | None => []
                         end ++ map (bound_predicate p) gs |} /\
             forall g, In g gs ->
               bound_predicate p g =
                 WPType (match g with
                         | CoustomBound tb => tb
                         | NoBound ty => {| bounded_ty := ty; bounds := [p] |}
                         end)).
Proof.
  eexists; split; [vm_compute; reflexivity|].
  apply derive_where_where_clauses; vm_compute; reflexivity.
Defined.

(** ** C9 *)

(** C9: [derive_where] either expands to the item unchanged followed by
    exactly one impl per requested trait, in the order requested, or
    reports one error as a compile error: the attribute's parse error,
    else the item's parse error, else the error of the first trait whose
    body fails, every trait before it having succeeded; an error carries
    no impl at all. *)
Theorem derive_where_all_or_first_error parse_item attr item :
  match derive_where parse_item attr item with
  | Expanded out =>
      exists dw di,
        parse_derive_where attr = Ok dw /\ parse_item item = Ok di /\
        out_item out = item /\
        Forall2 (fun t ib => exists body p,
                   generate_body t (di_ident di) (di_data di) = Ok body /\
                   trait_path t = Ok p /\
                   ib = impl_of (generics dw) (di_ident di) (di_generics di) body p)
                (traits dw) (out_impls out)
  | CompileError e =>
      parse_derive_where attr = Err e \/
      exists dw, parse_derive_where attr = Ok dw /\
        (parse_item item = Err e \/
         exists di pre t post,
           parse_item item = Ok di /\ traits dw = pre ++ t :: post /\
           Forall (fun t => exists body, generate_body t (di_ident di) (di_data di) = Ok body) pre /\
           generate_body t (di_ident di) (di_data di) = Err e)
  | Panicked _ => True
  end.
Proof.
  unfold derive_where; rewrite derive_where_internal_cases.
  destruct (parse_derive_where attr) as [dw|e|m]; simpl; auto.
  destruct (parse_item item) as [di|e|m] eqn:Ei; simpl; auto;
    [|right; exists dw; split; [reflexivity|left; reflexivity]].
  destruct (impl_loop _ _ _ _ _ []) as [impls|e|m] eqn:El; simpl; auto.
  - destruct (impl_loop_ok _ _ _ _ _ _ _ El) as (news & Hn & HF); simpl in Hn; subst news.
    exists dw, di; auto.
  - right; exists dw; split; auto; right.
    destruct (impl_loop_err _ _ _ _ _ _ _ El) as (pre & t & post & Ht & HF & He).
    exists di, pre, t, post; auto.
Qed.

(** ** C10 *)

(** C10: given an item parser that never panics and returns items whose
    named fields all have a name (as syn's [DeriveInput] does), the
    eight trait paths all parse, and neither [derive_where_internal] nor
    [derive_where] ever panics: every input gives [Ok] or [Err]. *)
Theorem derive_where_never_panics (parse_item : list tok -> Res DeriveInput) :
  (forall item m, parse_item item <> Panic m) ->
  (forall item di, parse_item item = Ok di -> data_wf (di_data di) = true) ->
  (forall t, exists p, trait_path t = Ok p) /\
  (forall attr item m, derive_where_internal parse_item attr item <> Panic m) /\
  (forall attr item m, derive_where parse_item attr item <> Panicked m).
Proof.
  intros Hparse Hwf.
  assert (Hint : forall attr item m, derive_where_internal parse_item attr item <> Panic m).
  { intros attr item m; rewrite derive_where_internal_cases.
    destruct (parse_derive_where attr) as [dw|e|m'] eqn:Ea; try discriminate;
      [|destruct (parse_derive_where_no_panic attr m' Ea)].
    destruct (parse_item item) as [di|e|m'] eqn:Ei; try discriminate;
      [|destruct (Hparse item m' Ei)].
    destruct (impl_loop _ _ _ _ _ []) as [impls|e|m'] eqn:El; try discriminate.
    exfalso; refine (impl_loop_no_panic _ _ _ _ _ [] _ m' El).
    intros t _; apply generate_body_no_panic; eauto. }
  split; [exact trait_path_some|split; [exact Hint|]].
  intros attr item m; unfold derive_where.
  specialize (Hint attr item).
  destruct (derive_where_internal parse_item attr item); try discriminate.
  exfalso; apply (Hint msg); reflexivity.
Qed.

Lemma derive_where_never_panics_witness :
  (forall item m, sample_parse item <> Panic m) /\
  (forall item di, sample_parse item = Ok di -> data_wf (di_data di) = true) /\
  (forall t, exists p, trait_path t = Ok p) /\
  (forall attr item m, derive_where_internal sample_parse attr item <> Panic m) /\
  (forall attr item m, derive_where sample_parse attr item <> Panicked m).
Proof.
  assert (H1 : forall item m, sample_parse item <> Panic m) by (intros; discriminate).
  assert (H2 : forall item di, sample_parse item = Ok di -> data_wf (di_data di) = true)
    by (intros item di H; inversion H; subst; reflexivity).
  split; [exact H1|split; [exact H2|]].
  apply derive_where_never_panics; [exact H1|exact H2].
Defined.

(** * Further properties of the code *)

(** ** [Representation] *)

Lemma representation_parse_inv s r :
  representation_parse s = Some r -> representation_to_tokens r = TIdent s.
Proof.
  unfold representation_parse.
  repeat match goal with
         | |- context [String.eqb ?a ?b] => destruct (String.eqb_spec a b)
         end; intros H; inversion H; subst; reflexivity.
Qed.

(** [Representation::parse] reads back exactly what [to_tokens] prints:
    printing a width and parsing it gives the same width, and every
    identifier [parse] accepts is the printing of the width it returns. *)
Theorem representation_tokens_roundtrip :
  (forall r, exists s, representation_to_tokens r = TIdent s /\ representation_parse s = Some r) /\
  (forall s r, representation_parse s = Some r -> representation_to_tokens r = TIdent s).
Proof.
  split; [intros r; destruct r; eexists; split; reflexivity|exact representation_parse_inv].
Qed.

(** ** [Discriminant::parse] *)

Lemma scan_attrs_app l1 l2 : forall h c,
  scan_attrs (l1 ++ l2) h c =
    sc <- scan_attrs l1 h c ;; let '(h', c') := sc in scan_attrs l2 h' c'.
Proof.
  induction l1 as [|a l1 IH]; intros h c; simpl; [reflexivity|].
  destruct (is_ident (attr_path a) "repr"); [|apply IH].
  destruct (meta a); try reflexivity.
  destruct (idents_terminated tokens) as [l| |]; simpl; try reflexivity.
  destruct (scan_idents l h c); apply IH.
Qed.

Lemma scan_attrs_filter attrs : forall h c,
  scan_attrs attrs h c =
    scan_attrs (filter (fun a => is_ident (attr_path a) "repr") attrs) h c.
Proof.
  induction attrs as [|a rest IH]; intros h c; simpl; [reflexivity|].
  destruct (is_ident (attr_path a) "repr") eqn:E; simpl; rewrite ?E; [|apply IH].
  destruct (meta a); try reflexivity.
  destruct (idents_terminated tokens) as [l| |]; simpl; try reflexivity.
  destruct (scan_idents l h c); apply IH.
Qed.

(** Attributes other than [repr] (doc comments, [derive], ...) never
    change how the discriminant is resolved, nor whether it fails. *)
Theorem discriminant_parse_only_repr attrs vs :
  discriminant_parse attrs vs =
    discriminant_parse (filter (fun a => is_ident (attr_path a) "repr") attrs) vs.
Proof. unfold discriminant_parse; rewrite <- scan_attrs_filter; reflexivity. Qed.

(** On an enum with other than one variant, a last attribute
    [#[repr(w)]] naming an integer width decides the width, whatever
    well-formed [repr] attributes come before it (including ones that name
    another width or [C]). *)
Theorem discriminant_parse_last_width attrs vs r :
  length vs <> 1 ->
  (exists ids, repr_idents attrs = Ok ids) ->
  discriminant_parse (attrs ++ [{| meta := MetaList ["repr"] [representation_to_tokens r] |}]) vs =
    Ok (if forallb (fun v => fields_is_empty (v_fields v)) vs then UnitRepr r else Repr r).
Proof.
  intros Hl [ids Hids]; unfold discriminant_parse.
  apply Nat.eqb_neq in Hl; rewrite Hl.
  rewrite scan_attrs_app.
  destruct (scan_attrs_spec attrs None false) as (_ & _ & Io).
  destruct (Io ids Hids) as (h' & c' & -> & _); simpl.
  destruct r; reflexivity.
Qed.

Lemma discriminant_parse_last_width_witness :
  length [{| v_ident := "A"; v_fields := FUnit |}; {| v_ident := "B"; v_fields := FUnit |}] <> 1 /\
  (exists ids, repr_idents [{| meta := MetaList ["repr"] [TIdent "C"; TComma; TIdent "u8"] |}] = Ok ids) /\
  discriminant_parse
    ([{| meta := MetaList ["repr"] [TIdent "C"; TComma; TIdent "u8"] |}] ++
     [{| meta := MetaList ["repr"] [representation_to_tokens I32] |}])
    [{| v_ident := "A"; v_fields := FUnit |}; {| v_ident := "B"; v_fields := FUnit |}] =
    Ok (UnitRepr I32).
Proof.
  assert (H1 : length [{| v_ident := "A"; v_fields := FUnit |}; {| v_ident := "B"; v_fields := FUnit |}] <> 1)
    by (simpl; lia).
  assert (H2 : exists ids, repr_idents [{| meta := MetaList ["repr"] [TIdent "C"; TComma; TIdent "u8"] |}] = Ok ids)
    by (eexists; reflexivity).
  split; [exact H1|split; [exact H2|]].
  exact (discriminant_parse_last_width _ _ I32 H1 H2).
Defined.

(** ** [Trait::parse] and [Trait::path] *)

(** [Trait::parse] accepts exactly the identifiers that end the paths of
    [Trait::path] ([::core::<module>::<Ident>]), and reports every other
    identifier as unsupported, naming it. *)
Theorem trait_parse_matches_path :
  (forall s t, trait_of_ident s = Ok t <-> exists m, trait_path t = Ok ["core"; m; s]) /\
  (forall s, (exists t, trait_of_ident s = Ok t) \/ trait_of_ident s = Err (EUnsupportedTrait s)).
Proof.
  split.
  - intros s t; split.
    + unfold trait_of_ident.
      repeat match goal with
             | |- context [String.eqb ?a ?b] => destruct (String.eqb_spec a b)
             end; intros H; inversion H; subst; eexists; reflexivity.
    + intros [m Hp]; destruct t; vm_compute in Hp; inversion Hp; subst; reflexivity.
  - intros s; unfold trait_of_ident.
    repeat match goal with
           | |- context [String.eqb ?a ?b] => destruct (String.eqb_spec a b)
           end; eauto.
Qed.

(** ** Writing attributes back

    A printer for the attribute [#[derive_where(..)]], to state what the
    parser reads back. *)

Definition trait_name (t : Trait) : string :=
  match t with
  | Clone => "Clone" | Copy => "Copy" | Debug => "Debug" | Eq => "Eq"
  | Hash => "Hash" | Ord => "Ord" | PartialEq => "PartialEq" | PartialOrd => "PartialOrd"
  end.

(** [x0 sep x1 sep .. xn]. *)
Definition join_toks (sep : tok) (xs : list (list tok)) : list tok :=
  match xs with
  | [] => []
  | x :: xs' => x ++ flat_map (fun y => sep :: y) xs'
  end.

(** The traits, comma separated, with a trailing comma if [trailing]. *)
Definition render_traits (trs : list Trait) (trailing : bool) : list tok :=
  join_toks TComma (map (fun t => [TIdent (trait_name t)]) trs)
  ++ (if trailing && negb (match trs with [] => true | _ => false end) then [TComma] else []).

Definition render_path (p : Path) : list tok :=
  match p with
  | [] => []
  | s :: ss => TIdent s :: flat_map (fun s => [TPathSep; TIdent s]) ss
  end.

Definition render_generic (g : Generic) : list tok :=
  match g with
  | NoBound ty => render_path ty
  | CoustomBound pt =>
      render_path (bounded_ty pt) ++ TColon :: join_toks TPlus (map render_path (bounds pt))
  end.

Definition render_derive_where (dw : DeriveWhere) : list tok :=
  match generics dw with
  | None => render_traits (traits dw) false
  | Some gs => join_toks TComma (map render_generic gs) ++ TSemi :: render_traits (traits dw) false
  end.

(** Paths are non-empty lists of identifiers (no reserved word), and
    the generic list of the bounded form is non-empty. *)
Definition path_wf (p : Path) : Prop :=
  p <> [] /\ Forall (fun s => is_keyword s = false) p.

Definition generic_wf (g : Generic) : Prop :=
  match g with
  | NoBound ty => path_wf ty
  | CoustomBound pt => path_wf (bounded_ty pt) /\ Forall path_wf (bounds pt)
  end.

Definition derive_where_wf (dw : DeriveWhere) : Prop :=
  match generics dw with
  | None => True
  | Some gs => gs <> [] /\ Forall generic_wf gs
  end.

Lemma traits_terminated_render trs trailing :
  traits_terminated (render_traits trs trailing) = Ok trs.
Proof.
  unfold render_traits; destruct trs as [|t trs]; simpl; [destruct trailing; reflexivity|].
  revert t; induction trs as [|t' trs IH]; intros t; simpl.
  - destruct trailing; simpl; destruct t; reflexivity.
  - specialize (IH t'); simpl in IH; rewrite IH.
    destruct t; reflexivity.
Qed.

(** A trait list, with or without a trailing comma, and the empty list,
    are read back as they were written, duplicates included, with no
    generics. *)
Theorem parse_derive_where_traits_roundtrip trs trailing :
  parse_derive_where (render_traits trs trailing) = Ok {| generics := None; traits := trs |}.
Proof. unfold parse_derive_where; rewrite traits_terminated_render; reflexivity. Qed.

Definition bounds_stop (rest : list tok) : Prop :=
  match rest with
  | [] | TComma :: _ | TSemi :: _ => True
  | _ => False
  end.

Lemma ident_segment_ok s : is_keyword s = false -> segment_ok s = true.
Proof. unfold segment_ok; intros ->; reflexivity. Qed.

Lemma path_rest_render ss : forall acc rest,
  Forall (fun s => is_keyword s = false) ss ->
  match rest with TPathSep :: _ => False | _ => True end ->
  path_rest acc (flat_map (fun s => [TPathSep; TIdent s]) ss ++ rest) = (acc ++ ss, rest).
Proof.
  induction ss as [|s ss IH]; intros acc rest Hk Hr; simpl.
  - rewrite app_nil_r; destruct rest as [|[] ?]; try contradiction; reflexivity.
  - inversion Hk as [|? ? Hs Hss]; subst.
    rewrite (ident_segment_ok s Hs), IH by assumption; rewrite <- app_assoc; reflexivity.
Qed.

Lemma parse_path_render p rest :
  path_wf p -> match rest with TPathSep :: _ => False | _ => True end ->
  parse_path (render_path p ++ rest) = Ok (p, rest).
Proof.
  intros [Hp Hk] Hr; destruct p as [|s ss]; [contradiction|]; simpl.
  inversion Hk as [|? ? Hs Hss]; subst.
  rewrite (ident_segment_ok s Hs), path_rest_render by assumption; reflexivity.
Qed.

Lemma length_flat_map_sep (sep : tok) (xs : list (list tok)) :
  length xs <= length (flat_map (fun y => sep :: y) xs).
Proof. induction xs; simpl; [lia|rewrite length_app; simpl; lia]. Qed.

Lemma parse_bounds_ident f s r :
  parse_bounds (S f) (TIdent s :: r) =
    pr <- parse_path (TIdent s :: r) ;;
    let '(b, rest) := pr in
    match rest with
    | TPlus :: rest' => br <- parse_bounds f rest' ;; let '(bs, rest'') := br in Ok (b :: bs, rest'')
    | _ => Ok ([b], rest)
    end.
Proof. reflexivity. Qed.

Lemma parse_bounds_path f b r :
  b <> [] ->
  parse_bounds (S f) (render_path b ++ r) =
    pr <- parse_path (render_path b ++ r) ;;
    let '(b, rest) := pr in
    match rest with
    | TPlus :: rest' => br <- parse_bounds f rest' ;; let '(bs, rest'') := br in Ok (b :: bs, rest'')
    | _ => Ok ([b], rest)
    end.
Proof. destruct b; [contradiction|reflexivity]. Qed.

Lemma parse_bounds_render bs' : forall b f rest,
  path_wf b -> Forall path_wf bs' -> bounds_stop rest -> length bs' <= f ->
  parse_bounds (S f) (render_path b ++ flat_map (fun y => TPlus :: y) (map render_path bs') ++ rest) =
    Ok (b :: bs', rest).
Proof.
  induction bs' as [|b' bs' IH]; intros b f rest Hb Hbs Hr Hf.
  - cbn [map flat_map app].
    rewrite parse_bounds_path by (destruct Hb; auto).
    rewrite parse_path_render by (auto; destruct rest as [|[] ?]; simpl in *; tauto); cbn [bind].
    destruct rest as [|[] ?]; simpl in Hr; try contradiction; reflexivity.
  - inversion Hbs as [|? ? Hb' Hbs']; subst.
    destruct f as [|f]; [simpl in Hf; lia|].
    cbn [map flat_map]; rewrite parse_bounds_path by (destruct Hb; auto).
    rewrite <- app_assoc; cbn [app].
    rewrite parse_path_render by (auto; exact I); cbn [bind].
    rewrite (IH b' f rest) by (auto; simpl in Hf; lia); reflexivity.
Qed.

Lemma parse_generic_render g rest :
  generic_wf g -> bounds_stop rest ->
  parse_generic (render_generic g ++ rest) = Ok (g, rest).
Proof.
  intros Hg Hr; destruct g as [[ty bs]|ty]; simpl in Hg |- *.
  - destruct Hg as [Hty Hbs].
    unfold parse_generic.
    assert (Hw : forall r, parse_where_predicate (render_path ty ++ r) =
                   pr <- parse_path (render_path ty ++ r) ;;
                   let '(ty, rest) := pr in
                   match rest with
                   | TColon :: rest' =>
                       br <- parse_bounds (length rest') rest' ;;
                       let '(bs, r) := br in
                       Ok (WPType {| bounded_ty := ty; bounds := bs |}, r)
                   | _ => Err (EExpected ":")
                   end).
    { intros r; destruct ty as [|s ss]; [destruct Hty; contradiction|]; reflexivity. }
    rewrite <- app_assoc; cbn [app]; rewrite Hw, parse_path_render by (auto; exact I); cbn [bind].
    destruct bs as [|b bs'].
    + simpl; destruct rest as [|[] ?]; simpl in Hr; try contradiction; reflexivity.
    + inversion Hbs as [|? ? Hb Hbs']; subst; unfold join_toks; cbn [map].
      rewrite <- app_assoc.
      assert (Hlen : exists f, length (render_path b ++
                                 flat_map (fun y => TPlus :: y) (map render_path bs') ++ rest) = S f
                               /\ length bs' <= f).
      { pose proof (length_flat_map_sep TPlus (map render_path bs')) as Hl.
        rewrite length_map in Hl; destruct b as [|s' ss']; [destruct Hb; contradiction|].
        exists (length (flat_map (fun s => [TPathSep; TIdent s]) ss' ++
                        flat_map (fun y => TPlus :: y) (map render_path bs') ++ rest)).
        split; [reflexivity|rewrite !length_app; lia]. }
      destruct Hlen as (f & -> & Hf).
      rewrite parse_bounds_render; auto.
  - unfold parse_generic.
    assert (Hw : parse_where_predicate (render_path ty ++ rest) =
                   pr <- parse_path (render_path ty ++ rest) ;;
                   let '(ty, rest) := pr in
                   match rest with
                   | TColon :: rest' =>
                       br <- parse_bounds (length rest') rest' ;;
                       let '(bs, r) := br in
                       Ok (WPType {| bounded_ty := ty; bounds := bs |}, r)
                   | _ => Err (EExpected ":")
                   end).
    { destruct ty as [|s ss]; [destruct Hg; contradiction|]; reflexivity. }
    rewrite Hw, parse_path_render by (auto; destruct rest as [|[] ?]; simpl in *; tauto).
    cbn [bind].
    destruct rest as [|[] ?]; simpl in Hr; try contradiction; reflexivity.
Qed.

Lemma generics_rest_render gs : forall f rest,
  Forall generic_wf gs -> (rest = [] \/ exists r, rest = TSemi :: r) -> length gs <= f ->
  generics_rest f (flat_map (fun y => TComma :: y) (map render_generic gs) ++ rest) = Ok (gs, rest).
Proof.
  induction gs as [|g gs IH]; intros f rest Hgs Hr Hf.
  - destruct f; simpl; [reflexivity|].
    destruct Hr as [->|[r ->]]; reflexivity.
  - inversion Hgs as [|? ? Hg Hgs']; subst.
    destruct f as [|f]; [simpl in Hf; lia|].
    cbn [map flat_map generics_rest app].
    rewrite <- app_assoc, parse_generic_render; auto.
    + cbn [bind]; rewrite IH; auto; simpl in Hf; lia.
    + destruct gs; simpl; [destruct Hr as [->|[r ->]]; exact I|exact I].
Qed.

(** A well-formed attribute in the bounded form ([generics ; traits],
    every path non-empty, at least one generic) or in the bare form is
    read back as it was written. *)
Theorem parse_derive_where_roundtrip dw :
  derive_where_wf dw -> parse_derive_where (render_derive_where dw) = Ok dw.
Proof.
  destruct dw as [[gs|] trs]; unfold derive_where_wf, render_derive_where; simpl.
  2: intros _; apply parse_derive_where_traits_roundtrip.
  intros [Hne Hgs].
  destruct gs as [|g gs]; [contradiction|].
  inversion Hgs as [|? ? Hg Hgs']; subst.
  assert (Hb : parse_bounded (join_toks TComma (map render_generic (g :: gs)) ++
                              TSemi :: render_traits trs false) =
               Ok {| generics := Some (g :: gs); traits := trs |}).
  { unfold parse_bounded, generics_nonempty, join_toks; cbn [map].
    rewrite <- app_assoc, parse_generic_render; auto.
    - cbn [bind]; rewrite generics_rest_render; auto.
      + cbn [bind]; rewrite traits_terminated_render; reflexivity.
      + right; eauto.
      + rewrite length_app; pose proof (length_flat_map_sep TComma (map render_generic gs)).
        rewrite length_map in H; lia.
    - destruct gs; exact I. }
  unfold parse_derive_where.
  destruct (traits_terminated _) as [trs'|e|m] eqn:Et.
  - exfalso; eapply traits_terminated_no_semi; [exact Et|].
    apply in_or_app; right; left; reflexivity.
  - exact Hb.
  - exfalso; eapply traits_terminated_no_panic; exact Et.
Qed.

Lemma parse_derive_where_roundtrip_witness :
  derive_where_wf {| generics := Some [NoBound ["T"];
                                       CoustomBound {| bounded_ty := ["U"];
                                                       bounds := [["core"; "fmt"; "Debug"]; ["Send"]] |}];
                     traits := [Clone; Debug] |} /\
  parse_derive_where
    (render_derive_where {| generics := Some [NoBound ["T"];
                                              CoustomBound {| bounded_ty := ["U"];
                                                              bounds := [["core"; "fmt"; "Debug"]; ["Send"]] |}];
                            traits := [Clone; Debug] |}) =
  Ok {| generics := Some [NoBound ["T"];
                          CoustomBound {| bounded_ty := ["U"];
                                          bounds := [["core"; "fmt"; "Debug"]; ["Send"]] |}];
        traits := [Clone; Debug] |}.
Proof.
  assert (H : derive_where_wf {| generics := Some [NoBound ["T"];
                                       CoustomBound {| bounded_ty := ["U"];
                                                       bounds := [["core"; "fmt"; "Debug"]; ["Send"]] |}];
                     traits := [Clone; Debug] |}).
  { simpl; split; [discriminate|].
    repeat constructor; simpl; try discriminate. }
  split; [exact H|exact (parse_derive_where_roundtrip _ H)].
Defined.

(** The lifetimes ['b + 'c + ..] of a lifetime predicate. *)
Definition render_lifetimes (ls : list string) : list tok :=
  join_toks TPlus (map (fun l => [TLifetime l]) ls).

(** Where the bounds of a predicate end. *)
Definition lifetime_stop (rest : list tok) : Prop :=
  match rest with
  | [] | TComma :: _ | TSemi :: _ | TColon :: _ | TEq :: _ => True
  | _ => False
  end.

Lemma lifetime_bounds_plus l r :
  lifetime_bounds (TLifetime l :: TPlus :: r) =
    (lr <- lifetime_bounds r ;; let '(ls, r') := lr in Ok (l :: ls, r')).
Proof. reflexivity. Qed.

Lemma lifetime_bounds_render ls rest :
  lifetime_stop rest ->
  lifetime_bounds (render_lifetimes ls ++ rest) = Ok (ls, rest).
Proof.
  intros Hr; unfold render_lifetimes, join_toks.
  destruct ls as [|l ls]; cbn [map app].
  - destruct rest as [|[] ?]; simpl in Hr; try contradiction; reflexivity.
  - revert l; induction ls as [|l' ls IH]; intros l; cbn [map flat_map app].
    + destruct rest as [|[] ?]; simpl in Hr; try contradiction; reflexivity.
    + rewrite lifetime_bounds_plus; specialize (IH l'); cbn [map flat_map app] in IH.
      rewrite IH; reflexivity.
Qed.

(** Results that are not the equality-predicate error. *)
Definition no_eq_err {A} (r : Res A) : Prop := r <> Err EEqPredicate.
Arguments no_eq_err {A} r : simpl never.

Lemma bind_no_eq_err {A B} (r : Res A) (k : A -> Res B) :
  no_eq_err r -> (forall a, r = Ok a -> no_eq_err (k a)) -> no_eq_err (bind r k).
Proof.
  intros Hr Hk; destruct r as [a|e|m] eqn:E; simpl.
  - apply Hk; reflexivity.
  - intros H; inversion H; subst; apply Hr; reflexivity.
  - intros H; discriminate.
Qed.

Lemma ok_no_eq_err {A} (a : A) : no_eq_err (Ok a).
Proof. intros H; discriminate. Qed.

Lemma panic_no_eq_err {A} m : no_eq_err (A := A) (Panic m).
Proof. intros H; discriminate. Qed.

Lemma expected_no_eq_err {A} w : no_eq_err (A := A) (Err (EExpected w)).
Proof. intros H; discriminate. Qed.

Lemma unsupported_no_eq_err {A} w : no_eq_err (A := A) (Err (EUnsupportedTrait w)).
Proof. intros H; discriminate. Qed.

Lemma lifetime_no_eq_err {A} : no_eq_err (A := A) (Err ELifetimeBound).
Proof. intros H; discriminate. Qed.

Create HintDb noeq.
#[local] Hint Resolve ok_no_eq_err panic_no_eq_err expected_no_eq_err
  unsupported_no_eq_err lifetime_no_eq_err : noeq.

Ltac ne_solve :=
  repeat (simpl; match goal with
          | |- no_eq_err (bind _ _) =>
              apply bind_no_eq_err; [|intros [? ?] _ || intros ? _]
          | |- no_eq_err (match ?x with _ => _ end) => destruct x
          | |- no_eq_err (if ?b then _ else _) => destruct b
          end);
  simpl; auto with noeq.

Lemma parse_path_no_eq_err ts : no_eq_err (parse_path ts).
Proof. unfold parse_path; ne_solve. Qed.
#[local] Hint Resolve parse_path_no_eq_err : noeq.

Lemma parse_where_predicate_no_eq ts wp r :
  parse_where_predicate ts = Ok (wp, r) -> forall a b, wp <> WPEq a b.
Proof.
  intros H a b ->; unfold parse_where_predicate in H.
  destruct ts as [|t ts1].
  - discriminate.
  - destruct t; try destruct ts1 as [|[] ts2];
      repeat match goal with
             | H : bind ?r _ = Ok _ |- _ =>
                 apply bind_ok in H as [[? ?] [_ H]]
             | H : match ?x with _ => _ end = Ok _ |- _ => destruct x; try discriminate
             | H : Ok _ = Ok _ |- _ => inversion H
             | H : Err _ = Ok _ |- _ => discriminate
             end.
Qed.

Lemma parse_generic_no_eq_err ts : no_eq_err (parse_generic ts).
Proof.
  unfold parse_generic.
  destruct (parse_where_predicate ts) as [[wp r]|e|m] eqn:E.
  - destruct wp as [p|l ls|a b]; auto with noeq.
    exfalso; eapply parse_where_predicate_no_eq; eauto.
  - ne_solve.
  - auto with noeq.
Qed.
#[local] Hint Resolve parse_generic_no_eq_err : noeq.

Lemma generics_rest_no_eq_err fuel : forall ts, no_eq_err (generics_rest fuel ts).
Proof. induction fuel; intros ts; ne_solve. Qed.
#[local] Hint Resolve generics_rest_no_eq_err : noeq.

Lemma parse_trait_no_eq_err t : no_eq_err (parse_trait t).
Proof. destruct t; simpl; auto with noeq; unfold trait_of_ident; ne_solve. Qed.
#[local] Hint Resolve parse_trait_no_eq_err : noeq.

Lemma traits_terminated_no_eq_err ts : no_eq_err (traits_terminated ts).
Proof.
  len_induction ts.
  destruct ts as [|t rest]; simpl; auto with noeq.
  apply bind_no_eq_err; [auto with noeq|intros tr _].
  destruct rest as [|[] rest']; auto with noeq.
  apply bind_no_eq_err; [|intros; auto with noeq].
  apply (IH rest'); unfold ltof; simpl; lia.
Qed.
#[local] Hint Resolve traits_terminated_no_eq_err : noeq.

(** Where predicates in the attribute: a lifetime predicate
    ['a: 'b + 'c ..] ending at [,], [;], [:], [=] or the end is rejected
    with the lifetime error; ['a:] followed by a type is not a lifetime
    predicate and fails with another error; the equality-predicate error
    is never produced (syn 1 does not parse [T = U]), and [T = ..] fails
    for want of the [;] after the generics. *)
Theorem parse_derive_where_where_predicates :
  (forall l ls rest, lifetime_stop rest ->
     parse_derive_where (TLifetime l :: TColon :: render_lifetimes ls ++ rest) = Err ELifetimeBound) /\
  (forall l s rest, exists e,
     parse_derive_where (TLifetime l :: TColon :: TIdent s :: rest) = Err e /\ e <> ELifetimeBound) /\
  (forall ts, parse_derive_where ts <> Err EEqPredicate) /\
  (forall ty rest, path_wf ty ->
     parse_derive_where (render_path ty ++ TEq :: rest) = Err (EExpected ";")).
Proof.
  split; [|split; [|split]].
  - intros l ls rest Hr.
    unfold parse_derive_where, parse_bounded, generics_nonempty, parse_generic.
    cbn [traits_terminated parse_trait bind parse_where_predicate].
    rewrite lifetime_bounds_render by exact Hr; reflexivity.
  - intros l s rest; exists (EExpected "type"); split; [|discriminate].
    reflexivity.
  - intros ts; unfold parse_derive_where.
    destruct (traits_terminated ts) eqn:E.
    + discriminate.
    + unfold parse_bounded, generics_nonempty; match goal with |- ?x <> _ => change (no_eq_err x) end; ne_solve.
    + discriminate.
  - intros ty rest Hty.
    assert (Hb : parse_bounded (render_path ty ++ TEq :: rest) = Err (EExpected ";")).
    { unfold parse_bounded, generics_nonempty, parse_generic.
      assert (Hw : parse_where_predicate (render_path ty ++ TEq :: rest) = Err (EExpected ":")).
      { destruct ty as [|s ss]; [destruct Hty; contradiction|].
        change ((pr <- parse_path (render_path (s :: ss) ++ TEq :: rest) ;;
                 let '(ty, rest) := pr in
                 match rest with
                 | TColon :: rest' =>
                     br <- parse_bounds (length rest') rest' ;;
                     let '(bs, r) := br in
                     Ok (WPType {| bounded_ty := ty; bounds := bs |}, r)
                 | _ => Err (EExpected ":")
                 end) = Err (EExpected ":")).
        rewrite parse_path_render by (auto; exact I); reflexivity. }
      rewrite Hw, parse_path_render by (auto; exact I); cbn [bind].
      destruct (length (TEq :: rest)); reflexivity. }
    unfold parse_derive_where.
    assert (Ht : exists e, traits_terminated (render_path ty ++ TEq :: rest) = Err e).
    { destruct Hty as [Hne Hk]; destruct ty as [|s ss]; [contradiction|].
      inversion Hk as [|? ? Hs _]; subst.
      cbn [render_path app traits_terminated parse_trait]; rewrite Hs.
      destruct (trait_of_ident s) as [t|e|msg] eqn:E; cbn [bind]; eauto.
      - destruct ss; simpl; eauto.
      - exfalso; apply (parse_trait_no_panic (TIdent s) msg); simpl; rewrite Hs; exact E. }
    destruct Ht as [e ->]; exact Hb.
Qed.

Lemma parse_derive_where_where_predicates_witness :
  lifetime_stop [TSemi; TIdent "Clone"] /\
  path_wf ["T"] /\
  parse_derive_where (TLifetime "a" :: TColon :: render_lifetimes ["b"; "c"] ++ [TSemi; TIdent "Clone"])
    = Err ELifetimeBound /\
  parse_derive_where (render_path ["T"] ++ TEq :: [TIdent "U"; TSemi; TIdent "Clone"])
    = Err (EExpected ";").
Proof.
  assert (H1 : lifetime_stop [TSemi; TIdent "Clone"]) by exact I.
  assert (H2 : path_wf ["T"]) by (split; [discriminate|repeat constructor]).
  split; [exact H1|split; [exact H2|split]].
  - exact (proj1 parse_derive_where_where_predicates "a" ["b"; "c"] _ H1).
  - exact (proj2 (proj2 (proj2 parse_derive_where_where_predicates)) ["T"] _ H2).
Defined.

(** ** [derive_where_internal] with an empty attribute *)

(** [#[derive_where()]] is accepted: the item comes out unchanged with
    no impl, once the item itself parses. *)
Theorem derive_where_empty_attribute parse_item item di :
  parse_item item = Ok di ->
  derive_where_internal parse_item [] item = Ok {| out_item := item; out_impls := [] |}.
Proof.
  intros H; rewrite derive_where_internal_cases; simpl; rewrite H; reflexivity.
Qed.

Lemma derive_where_empty_attribute_witness :
  sample_parse [] = Ok sample_input /\
  derive_where_internal sample_parse [] [] = Ok {| out_item := []; out_impls := [] |}.
Proof.
  assert (H : sample_parse [] = Ok sample_input) by reflexivity.
  split; [exact H|exact (derive_where_empty_attribute sample_parse [] sample_input H)].
Defined.

(** ** [Trait::generate_body]: arms and errors *)

(** [Copy] and [Eq] produce no method body. *)
Definition is_marker (t : Trait) : bool :=
  match t with Copy | Eq => true | _ => false end.

Lemma build_fields_arms t debug_name name pattern variants f :
  fields_wf f = true ->
  exists arms,
    match f with
    | FNamed fs => build_for_struct t debug_name name pattern variants fs
    | FUnnamed fs => build_for_tuple t debug_name name pattern variants fs
    | FUnit => build_for_unit t debug_name name pattern variants
    end = Ok arms /\
    map arm_path arms = if is_marker t then [] else [pattern].
Proof.
  intros Hwf; destruct f as [fs|fs|].
  - destruct (field_idents_ok fs Hwf) as [ids Hids].
    unfold build_for_struct; destruct (trait_path_some t) as [p Hp]; rewrite Hp; cbn [bind].
    rewrite Hids; cbn [bind].
    destruct t; simpl; eexists; split; reflexivity.
  - unfold build_for_tuple; destruct t; simpl; eexists; split; reflexivity.
  - unfold build_for_unit; destruct t; simpl; eexists; split; reflexivity.
Qed.

Lemma variant_arms_paths t name variants : forall vs index,
  forallb (fun v => fields_wf (v_fields v)) vs = true ->
  exists arms, variant_arms t name variants index vs = Ok arms /\
    map arm_path arms = if is_marker t then [] else map (fun v => [name; v_ident v]) vs.
Proof.
  induction vs as [|v vs IH]; intros index Hwf.
  - exists []; split; [reflexivity|destruct (is_marker t); reflexivity].
  - simpl in Hwf; apply andb_true_iff in Hwf as [Hv Hvs].
    destruct (build_fields_arms t (v_ident v) name [name; v_ident v] (Some (index, variants))
                (v_fields v) Hv) as (a & Ha & Hpa).
    destruct (IH (S index) Hvs) as (arms & Has & Hps).
    exists (a ++ arms); split.
    + cbn [variant_arms]; rewrite Ha; cbn [bind]; rewrite Has; reflexivity.
    + rewrite map_app, Hpa, Hps; destruct (is_marker t); reflexivity.
Qed.

Lemma generate_body_arms_aux t name d :
  data_wf d = true -> d <> DStruct FUnit -> d <> DUnion ->
  exists arms,
    generate_body t name d = build_signature t arms /\
    map arm_path arms = if is_marker t then [] else map fst (shapes_of name d).
Proof.
  intros Hwf Hu Hn; unfold generate_body.
  destruct d as [[fs|fs|]|vs|]; try contradiction; simpl in Hwf.
  - destruct (build_fields_arms t name name [name] None (FNamed fs) Hwf) as (arms & Ha & Hp).
    exists arms; rewrite Ha; split; [reflexivity|exact Hp].
  - destruct (build_fields_arms t name name [name] None (FUnnamed fs) Hwf) as (arms & Ha & Hp).
    exists arms; rewrite Ha; split; [reflexivity|exact Hp].
  - destruct (variant_arms_paths t name (map v_ident vs) vs 0 Hwf) as (arms & Ha & Hp).
    exists arms; rewrite Ha; split; [reflexivity|].
    rewrite Hp; simpl; rewrite map_map; reflexivity.
Qed.

(** For a supported item the generated [match] has one arm per
    constructor, for the struct itself or for each variant in
    declaration order, each matching that constructor's path; [Copy]
    and [Eq] get no arm. *)
Theorem generate_body_one_arm_per_constructor t name d :
  data_wf d = true -> d <> DStruct FUnit -> d <> DUnion ->
  exists arms,
    generate_body t name d = build_signature t arms /\
    map arm_path arms = if is_marker t then [] else map fst (shapes_of name d).
Proof. apply generate_body_arms_aux. Qed.

Lemma generate_body_one_arm_per_constructor_witness :
  data_wf (DEnum sample_enum) = true /\ DEnum sample_enum <> DStruct FUnit /\
  DEnum sample_enum <> DUnion /\
  exists arms,
    generate_body Debug "E" (DEnum sample_enum) = build_signature Debug arms /\
    map arm_path arms = if is_marker Debug then [] else map fst (shapes_of "E" (DEnum sample_enum)).
Proof.
  assert (H1 : data_wf (DEnum sample_enum) = true) by reflexivity.
  assert (H2 : DEnum sample_enum <> DStruct FUnit) by discriminate.
  assert (H3 : DEnum sample_enum <> DUnion) by discriminate.
  split; [exact H1|split; [exact H2|split; [exact H3|]]].
  exact (generate_body_one_arm_per_constructor Debug "E" _ H1 H2 H3).
Defined.

(** [generate_body] fails exactly on unit structs and on unions, with
    the same error for every trait; on any other item whose named fields
    have names it succeeds. *)
Theorem generate_body_errors t name d :
  data_wf d = true ->
  (generate_body t name d = Err EUnitStruct <-> d = DStruct FUnit) /\
  (generate_body t name d = Err EUnion <-> d = DUnion) /\
  (d <> DStruct FUnit -> d <> DUnion -> exists m, generate_body t name d = Ok m).
Proof.
  intros Hwf.
  assert (Hok : d <> DStruct FUnit -> d <> DUnion -> exists m, generate_body t name d = Ok m).
  { intros Hu Hn; destruct (generate_body_arms_aux t name d Hwf Hu Hn) as (arms & -> & _).
    unfold build_signature; destruct (trait_path_some t) as [p ->]; eexists; reflexivity. }
  split; [|split; [|exact Hok]].
  - split; [|intros ->; reflexivity].
    intros H; destruct d as [[fs|fs|]|vs|]; auto;
      try (destruct Hok as [m Hm]; [discriminate|discriminate|congruence]).
  - split; [|intros ->; reflexivity].
    intros H; destruct d as [[fs|fs|]|vs|]; auto;
      try (destruct Hok as [m Hm]; [discriminate|discriminate|congruence]).
Qed.

Lemma generate_body_errors_witness :
  data_wf DUnion = true /\
  (generate_body Clone "U" DUnion = Err EUnitStruct <-> DUnion = DStruct FUnit) /\
  (generate_body Clone "U" DUnion = Err EUnion <-> DUnion = DUnion) /\
  (DUnion <> DStruct FUnit -> DUnion <> DUnion -> exists m, generate_body Clone "U" DUnion = Ok m).
Proof.
  assert (H : data_wf DUnion = true) by reflexivity.
  split; [exact H|exact (generate_body_errors Clone "U" DUnion H)].
Defined.

(** ** Binders of the generated patterns *)

(** The variables a pattern binds. *)
Definition pat_binders (p : Pat) : list string :=
  match pat_shape p with
  | PNamed binds => map snd binds
  | PTuple binds => binds
  | PUnit => []
  end.

(** The variables in scope in an arm's body: the self pattern's, and for
    [Ord]/[PartialOrd] (nested [match __other]) and [PartialEq] (pair
    pattern) also the other pattern's. *)
Definition arm_binders (a : Arm) : list string :=
  match a with
  | ArmClone p _ | ArmDebug p _ | ArmHash p _ _ => pat_binders p
  | ArmOrd p po _ _ | ArmEq p po _ _ _ => pat_binders p ++ pat_binders po
  end.

(** Reading a decimal string back. *)
Fixpoint dec_val (s : string) (v : nat) : nat :=
  match s with
  | EmptyString => v
  | String c s' => dec_val s' (v * 10 + (nat_of_ascii c - 48))
  end.

Fixpoint all_digits (s : string) : bool :=
  match s with
  | EmptyString => true
  | String c s' => (48 <=? nat_of_ascii c) && (nat_of_ascii c <=? 57) && all_digits s'
  end.

Lemma string_append_assoc (a b c : string) :
  String.append (String.append a b) c = String.append a (String.append b c).
Proof. induction a; simpl; congruence. Qed.

Lemma dec_val_app s1 s2 v : dec_val (String.append s1 s2) v = dec_val s2 (dec_val s1 v).
Proof. revert v; induction s1; simpl; auto. Qed.

Lemma all_digits_app s1 s2 : all_digits (String.append s1 s2) = all_digits s1 && all_digits s2.
Proof. induction s1; simpl; auto; rewrite IHs1, !andb_assoc; reflexivity. Qed.

Lemma nat_digits_app f : forall n acc,
  nat_digits f n acc = String.append (nat_digits f n EmptyString) acc.
Proof.
  induction f as [|f IH]; intros n acc; simpl; [reflexivity|].
  destruct (n <? 10); [reflexivity|].
  rewrite IH, (IH _ (String _ EmptyString)), string_append_assoc; reflexivity.
Qed.

Lemma digit_char n : nat_of_ascii (ascii_of_nat (48 + n mod 10)) = 48 + n mod 10.
Proof.
  apply nat_ascii_embedding; pose proof (Nat.mod_upper_bound n 10); lia.
Qed.

Lemma nat_digits_val f : forall n, n < f -> dec_val (nat_digits f n EmptyString) 0 = n.
Proof.
  induction f as [|f IH]; intros n Hn; [lia|]; cbn [nat_digits].
  pose proof (Nat.div_mod_eq n 10) as Hdm.
  destruct (Nat.ltb_spec n 10) as [Hl|Hl].
  - cbn [dec_val]; rewrite digit_char, Nat.mod_small by exact Hl; lia.
  - rewrite nat_digits_app, dec_val_app, IH.
    + cbn [dec_val]; rewrite digit_char; lia.
    + assert (n / 10 < n) by (apply Nat.div_lt; lia); lia.
Qed.

Lemma digit_char_ok n : (48 <=? nat_of_ascii (ascii_of_nat (48 + n mod 10))) &&
                        (nat_of_ascii (ascii_of_nat (48 + n mod 10)) <=? 57) = true.
Proof.
  rewrite digit_char; pose proof (Nat.mod_upper_bound n 10).
  apply andb_true_iff; split; apply Nat.leb_le; lia.
Qed.

Lemma nat_digits_digits f : forall n, all_digits (nat_digits f n EmptyString) = true.
Proof.
  induction f as [|f IH]; intros n; cbn [nat_digits]; [reflexivity|].
  destruct (n <? 10).
  - cbn [all_digits]; rewrite digit_char_ok; reflexivity.
  - rewrite nat_digits_app, all_digits_app, IH; cbn [all_digits].
    rewrite digit_char_ok; reflexivity.
Qed.

Lemma nat_to_string_inj i j : nat_to_string i = nat_to_string j -> i = j.
Proof.
  unfold nat_to_string; intros H.
  rewrite <- (nat_digits_val (S i) i), <- (nat_digits_val (S j) j), H by lia; reflexivity.
Qed.

Lemma nat_to_string_not_other i s : nat_to_string i <> String.append "other_" s.
Proof.
  intros H; pose proof (nat_digits_digits (S i) i) as Hd; unfold nat_to_string in H.
  rewrite H in Hd; discriminate.
Qed.

Lemma NoDup_map_injective {A B} (f : A -> B) l :
  (forall x y, In x l -> In y l -> f x = f y -> x = y) -> NoDup l -> NoDup (map f l).
Proof.
  intros Hi Hnd; induction Hnd as [|x l Hx Hnd IH]; simpl; constructor.
  - intros Hin; apply in_map_iff in Hin as [y [Hy Hyl]].
    apply Hi in Hy; [subst; contradiction|right; auto|left; auto].
  - apply IH; intros a b Ha Hb; apply Hi; right; auto.
Qed.

Lemma NoDup_app_disjoint {A} (l1 l2 : list A) x :
  NoDup (l1 ++ l2) -> In x l1 -> In x l2 -> False.
Proof.
  induction l1 as [|a l1 IH]; simpl; [tauto|].
  intros Hnd [<-|Hx] H2; inversion Hnd as [|? ? Hn Hnd']; subst.
  - apply Hn, in_or_app; right; auto.
  - eapply IH; eauto.
Qed.

Lemma map_snd_combine {A B} (l1 : list A) (l2 : list B) :
  length l1 = length l2 -> map snd (combine l1 l2) = l2.
Proof.
  revert l2; induction l1 as [|a l1 IH]; intros [|b l2] H; simpl in *; try discriminate; auto.
  f_equal; apply IH; lia.
Qed.

Lemma prefix_inj (p a b : string) : String.append p a = String.append p b -> a = b.
Proof. induction p; simpl; [auto|intros H; inversion H; auto]. Qed.

Lemma temps_others_disjoint a b :
  format_ident "__" a = format_ident "__other_" b <-> a = String.append "other_" b.
Proof.
  unfold format_ident; simpl; split; [intros H; inversion H; auto|intros ->; reflexivity].
Qed.

(** For tuple shapes the binders in scope in every generated arm are
    pairwise distinct: [__0 .. __n-1] and [__other_0 .. __other_n-1]. *)
Theorem build_for_tuple_binders_distinct t debug_name item_ident pattern variants fs :
  exists arms,
    build_for_tuple t debug_name item_ident pattern variants fs = Ok arms /\
    Forall (fun a => NoDup (arm_binders a)) arms.
Proof.
  set (temps := map (fun i => format_ident "__" (nat_to_string i)) (seq 0 (length fs))).
  set (others := map (fun i => format_ident "__other_" (nat_to_string i)) (seq 0 (length fs))).
  assert (Ht : NoDup temps).
  { apply NoDup_map_injective; [|apply seq_NoDup].
    intros x y _ _ H; apply prefix_inj, nat_to_string_inj in H; exact H. }
  assert (Ho : NoDup others).
  { apply NoDup_map_injective; [|apply seq_NoDup].
    intros x y _ _ H; apply prefix_inj, nat_to_string_inj in H; exact H. }
  assert (Hto : NoDup (temps ++ others)).
  { apply NoDup_app; auto.
    intros x Hx Hy; unfold temps, others in *.
    apply in_map_iff in Hx as [i [<- _]]; apply in_map_iff in Hy as [j [Hj _]].
    symmetry in Hj; apply temps_others_disjoint in Hj; eapply nat_to_string_not_other; eauto. }
  unfold build_for_tuple; destruct t; simpl; eexists; split; try reflexivity;
    repeat constructor; unfold arm_binders, pat_binders; simpl; auto.
Qed.

Lemma named_binders_nodup ids :
  NoDup (map (format_ident "__") ids ++ map (format_ident "__other_") ids) <->
  NoDup ids /\ (forall f g, In f ids -> In g ids -> f <> String.append "other_" g).
Proof.
  split.
  - intros H; split.
    + apply NoDup_app_remove_r in H; eapply NoDup_map_inv; exact H.
    + intros f g Hf Hg Heq.
      apply (NoDup_app_disjoint _ _ (format_ident "__" f) H).
      * apply in_map; exact Hf.
      * rewrite (proj2 (temps_others_disjoint f g) Heq); apply in_map; exact Hg.
  - intros [Hnd Hc]; apply NoDup_app.
    + apply NoDup_map_injective; auto; intros x y _ _ Hxy; exact (prefix_inj _ _ _ Hxy).
    + apply NoDup_map_injective; auto; intros x y _ _ Hxy; exact (prefix_inj _ _ _ Hxy).
    + intros x Hx Hy; apply in_map_iff in Hx as [f [<- Hf]]; apply in_map_iff in Hy as [g [Hfg Hg]].
      symmetry in Hfg; apply temps_others_disjoint in Hfg; exact (Hc f g Hf Hg Hfg).
Qed.

(** For named fields, the binders [__f] and [__other_f] of the
    comparison arms ([PartialEq], [Ord], [PartialOrd]) are pairwise
    distinct exactly when the field names are distinct and no field is
    named [other_g] for a field [g]; otherwise [__other_g] is bound twice
    (a duplicate binding in the [PartialEq] pair pattern, a shadowing in
    the nested [match __other] of [Ord]/[PartialOrd]). *)
Theorem build_for_struct_binders_distinct t debug_name item_ident pattern variants fs :
  fields_wf (FNamed fs) = true ->
  t = PartialEq \/ t = Ord \/ t = PartialOrd ->
  exists a,
    build_for_struct t debug_name item_ident pattern variants fs = Ok [a] /\
    (NoDup (arm_binders a) <->
     let ids := map (fun fd => match field_ident fd with Some i => i | None => "" end) fs in
     NoDup ids /\ (forall f g, In f ids -> In g ids -> f <> String.append "other_" g)).
Proof.
  intros Hwf Ht; destruct (field_idents_ok fs Hwf) as [ids Hids].
  pose proof (field_idents_map fs ids Hids) as Hmap.
  unfold build_for_struct; destruct (trait_path_some t) as [p Hp]; rewrite Hp; cbn [bind].
  rewrite Hids; cbn [bind].
  assert (Hb : forall l : list string, length l = length ids ->
                 map snd (combine ids l) = l) by (intros l Hl; apply map_snd_combine; auto).
  destruct Ht as [ -> | [ -> | -> ] ]; simpl; eexists; (split; [reflexivity|]);
    cbv zeta; rewrite <- Hmap, <- named_binders_nodup;
    unfold arm_binders, pat_binders; simpl; rewrite !Hb by (rewrite length_map; reflexivity);
    reflexivity.
Qed.

Lemma build_for_struct_binders_distinct_witness :
  fields_wf (FNamed [{| field_ident := Some "a" |}; {| field_ident := Some "other_a" |}]) = true /\
  (PartialEq = PartialEq \/ PartialEq = Ord \/ PartialEq = PartialOrd) /\
  exists a,
    build_for_struct PartialEq "S" "S" ["S"] None
      [{| field_ident := Some "a" |}; {| field_ident := Some "other_a" |}] = Ok [a] /\
    (NoDup (arm_binders a) <->
     let ids := map (fun fd => match field_ident fd with Some i => i | None => "" end)
                  [{| field_ident := Some "a" |}; {| field_ident := Some "other_a" |}] in
     NoDup ids /\ (forall f g, In f ids -> In g ids -> f <> String.append "other_" g)).
Proof.
  assert (H1 : fields_wf (FNamed [{| field_ident := Some "a" |}; {| field_ident := Some "other_a" |}]) = true)
    by reflexivity.
  assert (H2 : PartialEq = PartialEq \/ PartialEq = Ord \/ PartialEq = PartialOrd) by (left; reflexivity).
  split; [exact H1|split; [exact H2|]].
  exact (build_for_struct_binders_distinct PartialEq "S" "S" ["S"] None _ H1 H2).
Defined.

Definition eq_arm_shape (pattern : list string) (a : Arm) : Prop :=
  exists p po path stmts tail,
    a = ArmEq p po path stmts tail /\ pat_path p = pattern /\ pat_path po = pattern.

Lemma partial_eq_fields_arm debug_name name pattern variants f arms :
  match f with
  | FNamed fs => build_for_struct PartialEq debug_name name pattern variants fs
  | FUnnamed fs => build_for_tuple PartialEq debug_name name pattern variants fs
  | FUnit => build_for_unit PartialEq debug_name name pattern variants
  end = Ok arms ->
  exists a, arms = [a] /\ eq_arm_shape pattern a.
Proof.
  destruct f as [fs|fs|].
  - unfold build_for_struct; destruct (trait_path_some PartialEq) as [p Hp]; rewrite Hp; cbn [bind].
    destruct (field_idents fs); cbn [bind]; intros H; inversion H; subst.
    eexists; split; [reflexivity|do 5 eexists; split; [reflexivity|split; reflexivity]].
  - unfold build_for_tuple; destruct (trait_path_some PartialEq) as [p Hp]; rewrite Hp; cbn [bind].
    intros H; inversion H; subst.
    eexists; split; [reflexivity|do 5 eexists; split; [reflexivity|split; reflexivity]].
  - unfold build_for_unit; intros H; inversion H; subst.
    eexists; split; [reflexivity|do 5 eexists; split; [reflexivity|split; reflexivity]].
Qed.

Lemma partial_eq_variant_arms name variants : forall vs index arms,
  variant_arms PartialEq name variants index vs = Ok arms ->
  Forall (fun a => eq_arm_shape (arm_path a) a) arms /\
  map arm_path arms = map (fun v => [name; v_ident v]) vs.
Proof.
  induction vs as [|v vs IH]; intros index arms H.
  - cbn in H; inversion H; subst; split; [constructor|reflexivity].
  - cbn [variant_arms] in H.
    destruct (match v_fields v with
              | FNamed fs => build_for_struct PartialEq (v_ident v) name [name; v_ident v]
                               (Some (index, variants)) fs
              | FUnnamed fs => build_for_tuple PartialEq (v_ident v) name [name; v_ident v]
                                 (Some (index, variants)) fs
              | FUnit => build_for_unit PartialEq (v_ident v) name [name; v_ident v]
                           (Some (index, variants))
              end) as [a0| |] eqn:Ha; cbn [bind] in H; try discriminate.
    destruct (variant_arms PartialEq name variants (S index) vs) as [rest| |] eqn:Hr;
      cbn [bind] in H; try discriminate.
    inversion H; subst; clear H.
    destruct (partial_eq_fields_arm _ _ _ _ _ _ Ha) as (a & -> & Hs).
    destruct (IH _ _ Hr) as [Hf Hm]; split.
    + constructor; [|exact Hf].
      destruct Hs as (p & po & path & stmts & tail & -> & Hp & Hpo).
      cbn [arm_path]; rewrite Hp; do 5 eexists; split; [reflexivity|split; auto].
    + cbn [map app]; f_equal; [|exact Hm].
      destruct Hs as (p & po & path & stmts & tail & -> & Hp & Hpo); exact Hp.
Qed.

(** For an enum, the generated [PartialEq::eq] never reaches its
    [_ => unreachable!] arm: when both values are variants of the enum,
    either their discriminants differ and the result is [false], or the
    pair matches the arm of their common variant. *)
Theorem partial_eq_enum_never_unreachable name vs m v w eq_call :
  generate_body PartialEq name (DEnum vs) = Ok m ->
  In v vs -> In w vs ->
  exists r cmp,
    eval_eq m [name; v_ident v] [name; v_ident w] eq_call = Some (r, cmp) /\
    r <> EVPanic /\
    (v_ident v <> v_ident w -> r = EVBool false).
Proof.
  intros Hg Hv Hw; unfold generate_body in Hg.
  destruct (variant_arms PartialEq name (map v_ident vs) 0 vs) as [arms| |] eqn:Ha;
    cbn [bind] in Hg; try discriminate.
  unfold build_signature in Hg; destruct (trait_path_some PartialEq) as [p Hp]; rewrite Hp in Hg;
    cbn [bind] in Hg; inversion Hg; subst m; clear Hg.
  destruct (partial_eq_variant_arms _ _ _ _ _ Ha) as [Hf Hm].
  unfold eval_eq.
  destruct (String.eqb (v_ident v) (v_ident w)) eqn:Evw.
  - apply String.eqb_eq in Evw; rewrite <- Evw.
    assert (Hin : In [name; v_ident v] (map arm_path arms))
      by (rewrite Hm; apply in_map_iff; exists v; auto).
    apply in_map_iff in Hin as [a [Hpa Ha']].
    set (sel := fun a : Arm => match a with
                               | ArmEq p po _ _ _ =>
                                   path_eqb (pat_path p) [name; v_ident v]
                                   && path_eqb (pat_path po) [name; v_ident v]
                               | _ => false
                               end).
    rewrite path_eqb_refl; fold sel.
    destruct (find sel arms) as [b|] eqn:Hfind.
    + apply find_some in Hfind as [Hb _].
      rewrite Forall_forall in Hf; destruct (Hf b Hb) as (p0 & po & path & stmts & tail & -> & _ & _).
      destruct tail; do 2 eexists; (split; [reflexivity|split; [discriminate|]]);
        intros Hne; contradiction.
    + exfalso; pose proof (find_none _ _ Hfind a Ha') as Hsel.
      rewrite Forall_forall in Hf; destruct (Hf a Ha') as (p0 & po & path & stmts & tail & Ea & Hp0 & Hpo).
      subst a; cbv beta iota delta [sel] in Hsel; cbn [arm_path] in Hpa, Hpo.
      rewrite Hpo, Hpa, path_eqb_refl in Hsel; discriminate.
  - assert (Hne : path_eqb [name; v_ident v] [name; v_ident w] = false).
    { destruct (path_eqb [name; v_ident v] [name; v_ident w]) eqn:E; auto.
      apply path_eqb_eq in E; inversion E as [E']; rewrite E', String.eqb_refl in Evw; discriminate. }
    rewrite Hne; do 2 eexists; split; [reflexivity|split; [discriminate|auto]].
Qed.

Lemma partial_eq_enum_never_unreachable_witness :
  exists m, generate_body PartialEq "E" (DEnum sample_enum) = Ok m /\
  In (nth 0 sample_enum (Build_Variant "" FUnit)) sample_enum /\
  In (nth 2 sample_enum (Build_Variant "" FUnit)) sample_enum /\
  exists r cmp,
    eval_eq m ["E"; v_ident (nth 0 sample_enum (Build_Variant "" FUnit))]
      ["E"; v_ident (nth 2 sample_enum (Build_Variant "" FUnit))] String.eqb = Some (r, cmp) /\
    r <> EVPanic /\
    (v_ident (nth 0 sample_enum (Build_Variant "" FUnit)) <>
     v_ident (nth 2 sample_enum (Build_Variant "" FUnit)) -> r = EVBool false).
Proof.
  eexists.
  assert (Hg : generate_body PartialEq "E" (DEnum sample_enum) = Ok _) by (vm_compute; reflexivity).
  assert (H0 : In (nth 0 sample_enum (Build_Variant "" FUnit)) sample_enum) by (simpl; auto).
  assert (H2 : In (nth 2 sample_enum (Build_Variant "" FUnit)) sample_enum) by (simpl; auto).
  split; [exact Hg|split; [exact H0|split; [exact H2|]]].
  exact (partial_eq_enum_never_unreachable "E" sample_enum _ _ _ String.eqb Hg H0 H2).
Defined.
